(** * boardgame.io: the move dispatcher of [core/game.js] and the socket
      middleware of [client/multiplayer/multiplayer.js]

    A shallow embedding of the two JavaScript modules over a small model of
    the JavaScript store: values are primitives or references, objects live
    in a heap indexed by location, and a computation is a function from the
    store to an outcome that either returns a value or throws, each with
    the store it leaves behind.

    Modelling boundary.  An object is described by its own properties
    (a finite map from names to values); properties inherited from a
    prototype are not part of the model.  Numbers are the integer-valued
    ones. *)

From Stdlib Require Import ZArith Ascii String.
From stdpp Require Import base option list gmap strings pretty.

Local Open Scope string_scope.

(** ** Values, objects and the heap *)

Module Js.

Definition loc := positive.

Inductive value : Type :=
| VUndefined
| VNull
| VBool (b : bool)
| VNum (n : Z)
| VStr (s : string)
| VRef (l : loc).
Arguments VRef l%_positive.

#[global] Instance value_eq_dec : EqDecision value.
Proof. solve_decision. Defined.

(** The functions the two modules create or receive.  A closure created by
    [Game] remembers the config object it closes over. *)
Inductive closure : Type :=
| CDefaultSetup                 (* () => ({})   *)
| CDefaultPlayerView            (* G => G       *)
| CGetMove (game : value)       (* the getMove arrow function of Game *)
| CProcessMove (game : value)   (* the processMove arrow function of Game *)
| CUser (n : N).                (* any function from outside the module *)

#[global] Instance closure_eq_dec : EqDecision closure.
Proof. solve_decision. Defined.

Inductive okind : Type :=
| KObject
| KArray (elems : list value)
| KFunction (c : closure).

#[global] Instance okind_eq_dec : EqDecision okind.
Proof. solve_decision. Defined.

Record object : Type := Obj { kind : okind; props : gmap string value }.

#[global] Instance object_eq_dec : EqDecision object.
Proof. solve_decision. Defined.

Abbreviation heap := (gmap loc object).

Inductive exn : Type :=
| TypeError (msg : string).

(** ** Outcomes and the state-and-exception monad *)

Inductive outcome (S A : Type) : Type :=
| Ret (a : A) (s : S)
| Throw (e : exn) (s : S).
Arguments Ret {S A} a s.
Arguments Throw {S A} e s.

Definition M (S A : Type) : Type := S → outcome S A.

#[global] Instance M_ret {S} : MRet (M S) := fun A a s => Ret a s.
#[global] Instance M_bind {S} : MBind (M S) := fun A B k m s =>
  match m s with
  | Ret a s' => k a s'
  | Throw e s' => Throw e s'
  end.

Definition throw {S A} (e : exn) : M S A := fun s => Throw e s.
Definition gets {S A} (f : S → A) : M S A := fun s => Ret (f s) s.

(** A pure step that may fail: the exception is thrown in the current
    store. *)
Definition lift_sum {S A} (r : exn + A) : M S A :=
  match r with inl e => throw e | inr a => mret a end.

Definition final {S A} (o : outcome S A) : S :=
  match o with Ret _ s => s | Throw _ s => s end.

(** ** Coercions of the language *)

(** ToBoolean. *)
Definition truthy (v : value) : bool :=
  match v with
  | VUndefined | VNull => false
  | VBool b => b
  | VNum n => negb (Z.eqb n 0)
  | VStr s => negb (String.eqb s "")
  | VRef _ => true
  end.

(** ToString and ToPropertyKey on primitives.  A reference is rendered as a
    plain object renders by default. *)
Definition to_string (v : value) : string :=
  match v with
  | VUndefined => "undefined"
  | VNull => "null"
  | VBool true => "true"
  | VBool false => "false"
  | VNum n => pretty n
  | VStr s => s
  | VRef _ => "[object Object]"
  end.

(** The value of a property in a map of properties: undefined when the
    property is missing. *)
Definition field (ps : gmap string value) (k : string) : value :=
  default VUndefined (ps !! k).

(** [v !== undefined] *)
Definition defined (v : value) : bool :=
  match v with VUndefined => false | _ => true end.

(** ** Reading and writing the heap *)

(** The own properties of an object as a map; an array contributes its
    indices. *)
Definition index_props (elems : list value) : gmap string value :=
  list_to_map (imap (fun i v => (pretty i, v)) elems).

Definition own_props (o : object) : gmap string value :=
  match kind o with
  | KArray elems =>
      <["length" := VNum (Z.of_nat (length elems))]> (index_props elems ∪ props o)
  | _ => props o
  end.

(** The enumerable own properties: what a spread and [Object.keys] see. *)
Definition enum_props (o : object) : gmap string value :=
  match kind o with
  | KArray elems => index_props elems ∪ props o
  | _ => props o
  end.

(** The object at a location.  Every reference of a run points into the
    heap; a location outside it reads as an object without properties. *)
Definition obj_at (h : heap) (l : loc) : object :=
  default (Obj KObject ∅) (h !! l).

(** The characters of a string as one-character strings. *)
Definition chars (s : string) : list value :=
  (fun c => VStr (String c EmptyString)) <$> String.list_ascii_of_string s.

(** The object whose own properties a member access on [v] sees: the
    object a reference points to, the characters and the length of a
    string, no property for a number or a boolean, and no object at all
    for undefined and null. *)
Definition boxed (h : heap) (v : value) : option object :=
  match v with
  | VUndefined | VNull => None
  | VBool _ | VNum _ => Some (Obj KObject ∅)
  | VStr s => Some (Obj (KArray (chars s)) ∅)
  | VRef l => Some (obj_at h l)
  end.

(** [v[k]]: a TypeError on undefined and null, undefined on a missing
    property. *)
Definition get_prop (h : heap) (v : value) (k : string) : exn + value :=
  match boxed h v with
  | None => inl (TypeError ("Cannot read property " ++ k))
  | Some o => inr (field (own_props o) k)
  end.

(** [k in v]: a TypeError unless [v] is an object. *)
Definition has_prop (h : heap) (v : value) (k : string) : exn + bool :=
  match v with
  | VRef l => inr (bool_decide (is_Some (own_props (obj_at h l) !! k)))
  | _ => inl (TypeError ("Cannot use 'in' operator to search for " ++ k))
  end.

(** [v[k] = x] in strict mode (ES modules): a TypeError unless [v] is an
    object.  The modules only ever write named properties. *)
Definition set_prop (h : heap) (v : value) (k : string) (x : value)
  : exn + heap :=
  match v with
  | VRef l =>
      let o := obj_at h l in
      inr (<[l := Obj (kind o) (<[k := x]> (props o))]> h)
  | _ => inl (TypeError ("Cannot set property " ++ k))
  end.

(** [v instanceof Object] and [v instanceof Function]. *)
Definition instanceof_Object (v : value) : bool :=
  match v with VRef _ => true | _ => false end.

Definition instanceof_Function (h : heap) (v : value) : bool :=
  match v with
  | VRef l =>
      match kind (obj_at h l) with
      | KFunction _ => true
      | _ => false
      end
  | _ => false
  end.

(** [Object.getOwnPropertyNames(v)] and [Object.keys(v)]: a TypeError on
    undefined and null.  The names come in the order of the map, which
    stands for the property order of the engine. *)
Definition names_of (pick : object → gmap string value)
    (h : heap) (v : value) : exn + list string :=
  match boxed h v with
  | None => inl (TypeError "Cannot convert undefined or null to object")
  | Some o => inr ((map_to_list (pick o)).*1)
  end.

Definition getOwnPropertyNames := names_of own_props.
Definition keys := names_of enum_props.

(** [a.concat(v)]: the elements of an array are appended one by one,
    anything else is appended as a single element. *)
Definition concat (h : heap) (a : list value) (v : value) : list value :=
  match v with
  | VRef l =>
      match kind (obj_at h l) with
      | KArray elems => a ++ elems
      | _ => a ++ [v]
      end
  | _ => a ++ [v]
  end.

(** What a spread [{...v}] copies: the enumerable own properties of the
    object that [v] is seen as, nothing for undefined and null. *)
Definition spread_props (h : heap) (v : value) : gmap string value :=
  match boxed h v with
  | None => ∅
  | Some o => enum_props o
  end.

(** Allocation of a new object at a location the heap does not use. *)
Definition fresh_loc (h : heap) : loc := fresh (dom h).

Definition alloc (o : object) (h : heap) : loc * heap :=
  let l := fresh_loc h in (l, <[l := o]> h).

(** The heap operations as computations. *)
Definition reads {A} (f : heap → exn + A) : M heap A :=
  fun h => lift_sum (f h) h.

Definition get (v : value) (k : string) : M heap value :=
  reads (fun h => get_prop h v k).

Definition has (k : string) (v : value) : M heap bool :=
  reads (fun h => has_prop h v k).

Definition set (v : value) (k : string) (x : value) : M heap unit :=
  fun h => match set_prop h v k x with
           | inl e => Throw e h
           | inr h' => Ret tt h'
           end.

Definition new (o : object) : M heap value :=
  fun h => let '(l, h') := alloc o h in Ret (VRef l) h'.

(** A computation that only reads leaves the heap as it found it, whether
    it returns or throws. *)
Definition read_only {A} (m : M heap A) : Prop := ∀ h, final (m h) = h.

(** A step that produces a value satisfying [Q] and keeps every object of
    the heap. *)
Definition yields (mk : M heap value) (Q : value → Prop) : Prop :=
  ∀ h, ∃ v h1, mk h = Ret v h1 ∧ Q v
               ∧ ∀ l o, h !! l = Some o → h1 !! l = Some o.

(** ** Strings and insertion-ordered sets *)

(** [s.split(c)] for a one-character separator. *)
Fixpoint split_on (c : ascii) (s : string) : list string :=
  match s with
  | EmptyString => [EmptyString]
  | String a s' =>
      if decide (a = c) then EmptyString :: split_on c s'
      else match split_on c s' with
           | [] => [String a EmptyString]
           | w :: ws => String a w :: ws
           end
  end.

(** [const s = name.split('.'); s[s.length - 1]] *)
Definition last_segment (name : string) : string :=
  default EmptyString (last (split_on "." name)).

(** [Set.prototype.add] on the list of the elements in insertion order. *)
Definition set_add (s : list string) (x : string) : list string :=
  if decide (x ∈ s) then s else s ++ [x].

End Js.

(** ** [core/game.js] *)

Module GameJs.
Import Js.

Section Game.
(** [FlowWithPhases] of [./flow] and [FnWrap] of [../plugins/main] are
    imported by the module; [call fn args] is the application
    [fn(...args)] of a function value. *)
Variable FlowWithPhases : value → M heap value.
Variable FnWrap : value → value → M heap value.
Variable call : value → list value → M heap value.

(** The [else if (name in game.moves)] arm of [getMove] and the final
    [return null]. *)
Definition global_move (game name : value) : M heap value :=
  moves ← get game "moves";
  b ← has (to_string name) moves;
  if b : bool then
    moves ← get game "moves";
    get moves (to_string name)
  else mret VNull.

(** The arm for a phase that declares moves. *)
Definition phase_move (game phase name : value) : M heap value :=
  let key := to_string phase ++ "." ++ to_string name in
  flow ← get game "flow";
  moveMap ← get flow "moveMap";
  b ← has key moveMap;
  if b : bool then
    flow ← get game "flow";
    moveMap ← get flow "moveMap";
    get moveMap key
  else mret VNull.

Definition getMove (game : value) (ctx name : value) : M heap value :=
  phase ← get ctx "phase";
  if bool_decide (phase ≠ VStr "default") then
    phases ← get game "phases";
    if defined phases then
      ph ← get phases (to_string phase);
      pmoves ← get ph "moves";
      if defined pmoves then phase_move game phase name
      else global_move game name
    else global_move game name
  else global_move game name.

(** [if (moveFn instanceof Object && moveFn.impl) moveFn = moveFn.impl] *)
Definition unwrap (moveFn : value) : M heap value :=
  if instanceof_Object moveFn then
    impl ← get moveFn "impl";
    if truthy impl then get moveFn "impl" else mret moveFn
  else mret moveFn.

(** [{ ...ctx, playerID: action.playerID }] *)
Definition withPlayerID (ctx action : value) : M heap value :=
  fields ← gets (fun h => spread_props h ctx);
  playerID ← get action "playerID";
  new (Obj KObject (<["playerID" := playerID]> fields)).

Definition processMove (game : value) (G action ctx : value)
  : M heap value :=
  type ← get action "type";
  moveFn ← getMove game ctx type;
  moveFn ← unwrap moveFn;
  isFn ← gets (fun h => instanceof_Function h moveFn);
  if isFn : bool then
    ctxWithPlayerID ← withPlayerID ctx action;
    aargs ← get action "args";
    args ← gets (fun h => concat h [G; ctxWithPlayerID] aargs);
    plugins ← get game "plugins";
    fn ← FnWrap moveFn plugins;
    call fn args
  else mret G.

(** [if (game.k === undefined) game.k = <fresh default>] *)
Definition default_to (game : value) (k : string) (mk : M heap value)
  : M heap unit :=
  cur ← get game k;
  if defined cur then mret tt
  else v ← mk; set game k v.

Definition fill_defaults (game : value) : M heap unit :=
  default_to game "name" (mret (VStr "default"));;
  default_to game "setup" (new (Obj (KFunction CDefaultSetup) ∅));;
  default_to game "moves" (new (Obj KObject ∅));;
  default_to game "playerView" (new (Obj (KFunction CDefaultPlayerView) ∅));;
  default_to game "plugins" (new (Obj (KArray []) ∅)).

(** [if (!game.flow || game.flow.processGameEvent === undefined)
      game.flow = FlowWithPhases(game)] *)
Definition ensure_flow (game : value) : M heap unit :=
  flow ← get game "flow";
  missing ← (if truthy flow then
               pge ← get flow "processGameEvent";
               mret (negb (defined pge))
             else mret true);
  if missing : bool then
    f ← FlowWithPhases game;
    set game "flow" f
  else mret tt.

(** The two [forEach] loops that fill [moveNameSet]. *)
Definition collect_names (moveKeys mapKeys : list string) : list string :=
  foldl (fun s name => set_add s (last_segment name))
        (foldl set_add [] moveKeys) mapKeys.

Definition moveNameSet (game : value) : M heap (list string) :=
  moves ← get game "moves";
  moveKeys ← reads (fun h => getOwnPropertyNames h moves);
  flow ← get game "flow";
  moveMap ← get flow "moveMap";
  mapKeys ← reads (fun h => keys h moveMap);
  mret (collect_names moveKeys mapKeys).

Definition Game (game : value) : M heap value :=
  pm ← get game "processMove";
  if defined pm then mret game
  else
    fill_defaults game;;
    getMoveFn ← new (Obj (KFunction (CGetMove game)) ∅);
    ensure_flow game;;
    names ← moveNameSet game;
    fields ← gets (fun h => spread_props h game);
    moveNames ← new (Obj (KArray (VStr <$> names)) ∅);
    processMoveFn ← new (Obj (KFunction (CProcessMove game)) ∅);
    new (Obj KObject
           (<["processMove" := processMoveFn]>
              (<["moveNames" := moveNames]>
                 (<["getMove" := getMoveFn]> fields)))).

End Game.

(** The condition of [getMove]: the current phase is not "default", the
    config has a phases table and the entry of the phase declares moves. *)
Definition declares_moves (h : heap) (game phase : value) : exn + bool :=
  if bool_decide (phase ≠ VStr "default") then
    match get_prop h game "phases" with
    | inl e => inl e
    | inr phases =>
        if defined phases then
          match get_prop h phases (to_string phase) with
          | inl e => inl e
          | inr ph =>
              match get_prop h ph "moves" with
              | inl e => inl e
              | inr pmoves => inr (defined pmoves)
              end
          end
        else inr false
    end
  else inr false.


(** The fields that [Game] fills in when they are undefined. *)
Definition defaults : list string :=
  ["name"; "setup"; "moves"; "playerView"; "plugins"].

(** The properties after [if (game.k === undefined) game.k = v]. *)
Definition fill (k : string) (v : value) (ps : gmap string value)
  : gmap string value :=
  if defined (field ps k) then ps else <[k := v]> ps.

(** The properties left by the five defaults. *)
Definition filled (ps : gmap string value) (l2 l3 l4 l5 : loc)
  : gmap string value :=
  fill "plugins" (VRef l5) (fill "playerView" (VRef l4)
    (fill "moves" (VRef l3) (fill "setup" (VRef l2)
       (fill "name" (VStr "default") ps)))).

Definition default_value (l2 l3 l4 l5 : loc) (k : string) : value :=
  if decide (k = "name") then VStr "default"
  else if decide (k = "setup") then VRef l2
  else if decide (k = "moves") then VRef l3
  else if decide (k = "playerView") then VRef l4
  else VRef l5.

(** The condition [!flow || flow.processGameEvent === undefined]. *)
Definition flow_missing (h : heap) (flow : value) : bool :=
  negb (truthy flow)
  || match get_prop h flow "processGameEvent" with
     | inr pge => negb (defined pge)
     | inl _ => true
     end.

(** A flow constructor that keeps every object of the heap it is given:
    it may allocate, it does not overwrite. *)
Definition keeps_objects (F : value → M heap value) (c : value) : Prop :=
  ∀ hb o f ha l, hb !! l = Some o → F c hb = Ret f ha → ha !! l = Some o.

(** The value and the heap that the last allocations of [Game] build from
    the heap [h1] left by the defaults, the heap [h3] in which the names
    are collected, and the names. *)
Definition processed (c : value) (h1 h3 : heap) (names : list string)
  : value * heap :=
  let lg := fresh_loc h1 in
  let la := fresh_loc h3 in
  let h4 := <[la := Obj (KArray (VStr <$> names)) ∅]> h3 in
  let lp := fresh_loc h4 in
  let h5 := <[lp := Obj (KFunction (CProcessMove c)) ∅]> h4 in
  let lr := fresh_loc h5 in
  (VRef lr,
   <[lr := Obj KObject
             (<["processMove" := VRef lp]>
                (<["moveNames" := VRef la]>
                   (<["getMove" := VRef lg]> (spread_props h3 c))))]> h5).

End GameJs.

(** ** [client/multiplayer/multiplayer.js] *)

Module MultiplayerJs.
Import Js.

(** What leaves the process: the socket a message was emitted on, the
    event name, the payload and, for a payload that is an object, its
    fields at the moment of the emission. *)
Record emission : Type := Emit {
  em_socket : value;
  em_event : string;
  em_payload : value;
  em_fields : gmap string value
}.

(** The store of the client: the heap and the messages emitted so far, in
    order. *)
Record world : Type := World { w_heap : heap; w_wire : list emission }.

Definition on_heap {A} (m : M heap A) : M world A :=
  fun w => match m (w_heap w) with
           | Ret a h => Ret a (World h (w_wire w))
           | Throw e h => Throw e (World h (w_wire w))
           end.

(** [socket.emit(event, payload)] on a socket object.  Without a socket
    the member access or the call is a TypeError. *)
Definition emit (socket : value) (event : string) (payload : value)
  : M world unit :=
  fun w =>
    match socket with
    | VRef _ =>
        Ret tt (World (w_heap w)
                  (w_wire w ++
                   [Emit socket event payload (spread_props (w_heap w) payload)]))
    | VUndefined | VNull => Throw (TypeError "Cannot read property emit") w
    | _ => Throw (TypeError "socket.emit is not a function") w
    end.

(** [const whiteListedActions = { 'MAKE_MOVE': true, 'END_TURN': true }] *)
Definition whiteListedActions : gmap string value :=
  {[ "MAKE_MOVE" := VBool true; "END_TURN" := VBool true ]}.

(** [whiteListedActions[type]] as a condition. *)
Definition whiteListed (type : value) : bool :=
  truthy (default VUndefined (whiteListedActions !! to_string type)).

(** The fields of an action after the three assignments of the
    middleware. *)
Definition tagged (_id gameid player : value) (fields : gmap string value)
  : gmap string value :=
  <["_player" := player]> (<["_gameid" := gameid]> (<["_id" := _id]> fields)).

Section Multiplayer.
(** [io] of [socket.io-client]; [getState] and [next] are handed to the
    middleware by Redux. *)
Variable io : M world value.
Variable getState : M world value.
Variable next : value → M world value.

(** [constructor(socketImpl)] *)
Definition constructor (socketImpl : value) : M world value :=
  this ← on_heap (new (Obj KObject ∅));
  on_heap (set this "gameid" (VStr "default"));;
  on_heap (set this "player" VNull);;
  (if defined socketImpl then on_heap (set this "socket" socketImpl)
   else socket ← io; on_heap (set this "socket" socket));;
  mret this.

(** The middleware [SocketUpdate] of [createStore], applied to the store
    API, to [next] and to the action. *)
Definition SocketUpdate (this action : value) : M world value :=
  state ← getState;
  result ← next action;
  type ← on_heap (get action "type");
  (if whiteListed type then
     _id ← on_heap (get state "_id");
     on_heap (set action "_id" _id);;
     gameid ← on_heap (get this "gameid");
     on_heap (set action "_gameid" gameid);;
     player ← on_heap (get this "player");
     on_heap (set action "_player" player);;
     socket ← on_heap (get this "socket");
     emit socket "action" action
   else mret tt);;
  mret result.

(** [updateGameID(id)] *)
Definition updateGameID (this id : value) : M world unit :=
  on_heap (set this "gameid" id);;
  socket ← on_heap (get this "socket");
  if truthy socket then
    socket ← on_heap (get this "socket");
    emit socket "sync" id
  else mret tt.

(** [updatePlayer(id)] *)
Definition updatePlayer (this id : value) : M world unit :=
  on_heap (set this "player" id).

End Multiplayer.
End MultiplayerJs.

(** ** The random plugin ([setup] of the plugin object) *)

Module RandomPlugin.
Import Js.

Section Random.
(** [Random.seed] of [./random/random]. *)
Variable Random_seed : M heap value.

(** [setup: ({ game }) => {
       let seed = game.seed;
       if (seed === undefined) seed = Random.seed();
       return { seed };
     }] *)
Definition setup (arg : value) : M heap value :=
  game ← get arg "game";
  seed ← get game "seed";
  seed ← (if defined seed then mret seed else Random_seed);
  new (Obj KObject {[ "seed" := seed ]}).

End Random.
End RandomPlugin.

(** ** Concrete stores *)

Module Fixture.
Import Js GameJs MultiplayerJs.

(** Stand-ins for the imported functions: a flow engine with an empty move
    map, a plugin chain that wraps nothing, and an application that
    records the function and its arguments in a new array. *)
Definition flow_stub (game : value) : M heap value :=
  pge ← new (Obj (KFunction (CUser 100)) ∅);
  moveMap ← new (Obj KObject ∅);
  new (Obj KObject {[ "processGameEvent" := pge; "moveMap" := moveMap ]}).

Definition wrap_none (fn plugins : value) : M heap value := mret fn.

Definition call_record (fn : value) (args : list value) : M heap value :=
  new (Obj (KArray (fn :: args)) ∅).

Definition fn (n : N) : object := Obj (KFunction (CUser n)) ∅.

(** [{
      moves: { pass, discard: { move: drop, undoable: false },
               draw: { impl: drop } },
      phases: { B: { moves: { play } }, C: {} },
      flow: { moveMap: { 'B.play': play }, processGameEvent },
      plugins: []
    }] at location 1, three ctx objects, four actions and a G. *)
Definition game_obj : object :=
  Obj KObject {[ "moves" := VRef 2; "phases" := VRef 3;
                 "flow" := VRef 5; "plugins" := VRef 8 ]}.

Definition ctx_default : object :=
  Obj KObject {[ "phase" := VStr "default"; "turn" := VNum 3 ]}.

Definition action_pass : object :=
  Obj KObject {[ "type" := VStr "pass"; "args" := VRef 31;
                 "playerID" := VStr "1" ]}.

Definition game_heap : heap :=
  list_to_map
    [ (1%positive, game_obj);
      (2%positive, Obj KObject {[ "pass" := VRef 10; "discard" := VRef 13;
                                  "draw" := VRef 15 ]});
      (3%positive, Obj KObject {[ "B" := VRef 4; "C" := VRef 9 ]});
      (4%positive, Obj KObject {[ "moves" := VRef 6 ]});
      (5%positive, Obj KObject {[ "moveMap" := VRef 7;
                                  "processGameEvent" := VRef 11 ]});
      (6%positive, Obj KObject {[ "play" := VRef 12 ]});
      (7%positive, Obj KObject {[ "B.play" := VRef 12 ]});
      (8%positive, Obj (KArray []) ∅);
      (9%positive, Obj KObject ∅);
      (10%positive, fn 0); (11%positive, fn 1); (12%positive, fn 2);
      (13%positive, Obj KObject {[ "move" := VRef 14;
                                   "undoable" := VBool false ]});
      (14%positive, fn 3);
      (15%positive, Obj KObject {[ "impl" := VRef 14 ]});
      (20%positive, Obj KObject {[ "phase" := VStr "A" ]});
      (21%positive, Obj KObject {[ "phase" := VStr "B" ]});
      (22%positive, ctx_default);
      (30%positive, action_pass);
      (31%positive, Obj (KArray [VNum 7]) ∅);
      (32%positive, Obj KObject {[ "type" := VStr "nope"; "args" := VRef 31;
                                   "playerID" := VStr "1" ]});
      (33%positive, Obj KObject {[ "type" := VStr "discard";
                                   "args" := VRef 31;
                                   "playerID" := VStr "1" ]});
      (34%positive, Obj KObject {[ "type" := VStr "draw"; "args" := VRef 31;
                                   "playerID" := VStr "1" ]});
      (40%positive, Obj KObject ∅) ].

(** The same game with its phases as a list, [phases: [{ name: 'A',
    moves: { play } }]], at location 61. *)
Definition list_phases_heap : heap :=
  <[61%positive := Obj KObject {[ "moves" := VRef 2; "phases" := VRef 62;
                                  "flow" := VRef 5; "plugins" := VRef 8 ]}]>
    (<[62%positive := Obj (KArray [VRef 63]) ∅]>
       (<[63%positive := Obj KObject {[ "name" := VStr "A";
                                        "moves" := VRef 6 ]}]> game_heap)).

(** [Game({})]: the empty config at location 1. *)
Definition empty_config_heap : heap := {[ 1%positive := Obj KObject ∅ ]}.

(** A client: the Multiplayer instance at 50 with its socket at 51, the
    store at 60 holding the state at 52, the state at 53 that the reducer
    produces, a move action at 54 and a restore action at 55. *)
Definition instance_fields : gmap string value :=
  {[ "gameid" := VStr "g1"; "player" := VStr "0"; "socket" := VRef 51 ]}.

Definition move_fields : gmap string value :=
  {[ "type" := VStr "MAKE_MOVE" ]}.

Definition restore_fields : gmap string value :=
  {[ "type" := VStr "RESTORE" ]}.

Definition client_world : world :=
  World
    (list_to_map
       [ (50%positive, Obj KObject instance_fields);
         (51%positive, Obj KObject ∅);
         (52%positive, Obj KObject {[ "_id" := VNum 4 ]});
         (53%positive, Obj KObject {[ "_id" := VNum 5 ]});
         (54%positive, Obj KObject move_fields);
         (55%positive, Obj KObject restore_fields);
         (60%positive, Obj KObject {[ "state" := VRef 52 ]}) ])
    [].

(** The client once the store holds the next state. *)
Definition world_after : world :=
  World (<[60%positive := Obj KObject {[ "state" := VRef 53 ]}]>
           (w_heap client_world)) [].

(** The store API of the client: getState reads the state of the store,
    the inner dispatch installs the next state and returns the action. *)
Definition getState_stub : M world value :=
  on_heap (get (VRef 60) "state").

Definition next_stub (action : value) : M world value :=
  on_heap (set (VRef 60) "state" (VRef 53));;
  mret action.

(** The action [{ type: 'pass', args: 7, playerID: '1' }] at 35, whose
    args is a number. *)
Definition scalar_action : object :=
  Obj KObject {[ "type" := VStr "pass"; "args" := VNum 7;
                 "playerID" := VStr "1" ]}.

Definition scalar_args_heap : heap := <[35%positive := scalar_action]> game_heap.

(** [Game({ moves: null })] *)
Definition null_moves_heap : heap :=
  {[ 1%positive := Obj KObject {[ "moves" := VNull ]} ]}.

(** [Game({ flow: { processGameEvent } })]: a flow engine that has no move
    map. *)
Definition bare_flow_heap : heap :=
  list_to_map
    [ (1%positive, Obj KObject {[ "flow" := VRef 2 ]});
      (2%positive, Obj KObject {[ "processGameEvent" := VRef 3 ]});
      (3%positive, fn 1) ].

(** The client with an instance that has no socket. *)
Definition offline_fields : gmap string value :=
  {[ "gameid" := VStr "g1"; "player" := VStr "0"; "socket" := VNull ]}.

Definition offline_world : world :=
  World (<[50%positive := Obj KObject offline_fields]> (w_heap client_world)) [].

(** An inner dispatch whose reducer throws, and an [io] that opens a new
    socket. *)
Definition next_fail (action : value) : M world value :=
  throw (TypeError "reducer").

Definition io_stub : M world value := on_heap (new (Obj KObject ∅)).

(** The argument of the setup of a plugin, [{ game }], for a game with a
    seed and for a game without one, and stand-ins for [Random.seed]. *)
Definition seeded_heap : heap :=
  list_to_map
    [ (1%positive, Obj KObject {[ "game" := VRef 2 ]});
      (2%positive, Obj KObject {[ "seed" := VStr "abc" ]}) ].

Definition unseeded_heap : heap :=
  list_to_map
    [ (1%positive, Obj KObject {[ "game" := VRef 2 ]});
      (2%positive, Obj KObject ∅) ].

Definition seed_stub : M heap value := mret (VStr "fresh").

Definition seed_fail : M heap value := throw (TypeError "no generator").

Definition flow_fail (game : value) : M heap value :=
  throw (TypeError "no engine").

End Fixture.

(** * Properties *)

(** ** The monad and the heap operations *)

Module JsFacts.
Import Js.

Section monad.
Context {S A B : Type}.
Implicit Types (m : M S A) (k : A → M S B).

Lemma bind_run m k s :
  (m ≫= k) s = match m s with
               | Ret a s' => k a s'
               | Throw e s' => Throw e s'
               end.
Proof. reflexivity. Qed.

Lemma bind_Ret m k s a s1 : m s = Ret a s1 → (m ≫= k) s = k a s1.
Proof. intros E. rewrite bind_run, E. reflexivity. Qed.

Lemma bind_Throw m k s e s1 : m s = Throw e s1 → (m ≫= k) s = Throw e s1.
Proof. intros E. rewrite bind_run, E. reflexivity. Qed.

Lemma bind_Ret_inv m k s b s2 :
  (m ≫= k) s = Ret b s2 → ∃ a s1, m s = Ret a s1 ∧ k a s1 = Ret b s2.
Proof.
  rewrite bind_run. destruct (m s) as [a s1|e s1]; [eauto | discriminate].
Qed.
End monad.

Lemma read_only_ret {A} (a : A) : read_only (mret a).
Proof. intros h. reflexivity. Qed.

Lemma read_only_reads {A} (f : heap → exn + A) : read_only (reads f).
Proof. intros h. unfold reads, lift_sum. destruct (f h); reflexivity. Qed.

Lemma read_only_get v k : read_only (get v k).
Proof. apply read_only_reads. Qed.

Lemma read_only_has k v : read_only (has k v).
Proof. apply read_only_reads. Qed.

Lemma read_only_gets {A} (f : heap → A) : read_only (gets f).
Proof. intros h. reflexivity. Qed.

Lemma read_only_bind {A B} (m : M heap A) (k : A → M heap B) :
  read_only m → (∀ a, read_only (k a)) → read_only (m ≫= k).
Proof.
  intros Hm Hk h. rewrite bind_run. specialize (Hm h).
  destruct (m h) as [a h1|e h1]; simpl in Hm; subst h1; [apply Hk | reflexivity].
Qed.

Lemma read_only_Ret {A} (m : M heap A) h a h1 :
  read_only m → m h = Ret a h1 → h1 = h.
Proof. intros Hm E. specialize (Hm h). rewrite E in Hm. exact Hm. Qed.

Lemma read_only_Throw {A} (m : M heap A) h e h1 :
  read_only m → m h = Throw e h1 → h1 = h.
Proof. intros Hm E. specialize (Hm h). rewrite E in Hm. exact Hm. Qed.

Create HintDb read_only discriminated.
#[export] Hint Resolve read_only_ret read_only_reads read_only_get
  read_only_has read_only_gets : read_only.

Ltac read_only_tac :=
  repeat first
    [ apply read_only_bind; [ | intros ? ]
    | match goal with
      | |- read_only (if ?b then _ else _) => destruct b
      | |- read_only (match ?b with _ => _ end) => destruct b
      end
    | solve [ auto with read_only ] ].

(** Running the primitive operations. *)
Lemma get_run v k h x : get_prop h v k = inr x → get v k h = Ret x h.
Proof. intros E. unfold get, reads. rewrite E. reflexivity. Qed.

Lemma get_throw v k h e : get_prop h v k = inl e → get v k h = Throw e h.
Proof. intros E. unfold get, reads. rewrite E. reflexivity. Qed.

Lemma get_Ret_inv v k h x h1 :
  get v k h = Ret x h1 → h1 = h ∧ get_prop h v k = inr x.
Proof.
  unfold get, reads. destruct (get_prop h v k); simpl; intros E;
    inversion E; auto.
Qed.

Lemma reads_Ret_inv {A} (f : heap → exn + A) h x h1 :
  reads f h = Ret x h1 → h1 = h ∧ f h = inr x.
Proof.
  unfold reads. destruct (f h); simpl; intros E; inversion E; auto.
Qed.

Lemma gets_run {A} (f : heap → A) h : gets f h = Ret (f h) h.
Proof. reflexivity. Qed.

Lemma obj_at_Some (h : heap) l o : h !! l = Some o → obj_at h l = o.
Proof. intros E. unfold obj_at. by rewrite E. Qed.

Lemma get_prop_obj h l o k :
  h !! l = Some o → get_prop h (VRef l) k = inr (field (own_props o) k).
Proof.
  intros E. unfold get_prop. cbn [boxed]. by rewrite (obj_at_Some _ _ _ E).
Qed.

Lemma set_run h l o k x :
  h !! l = Some o →
  set (VRef l) k x h = Ret tt (<[l := Obj (kind o) (<[k := x]> (props o))]> h).
Proof.
  intros E. unfold set. cbn [set_prop]. by rewrite (obj_at_Some _ _ _ E).
Qed.

(** Allocation picks an unused location and disturbs no other. *)
Lemma fresh_loc_None (h : heap) : h !! fresh_loc h = None.
Proof. apply not_elem_of_dom. unfold fresh_loc. apply is_fresh. Qed.

Lemma new_run o h : new o h = Ret (VRef (fresh_loc h)) (<[fresh_loc h := o]> h).
Proof. reflexivity. Qed.

Lemma alloc_frame (h : heap) o l o' :
  h !! l = Some o' → <[fresh_loc h := o]> h !! l = Some o'.
Proof.
  intros E. rewrite lookup_insert_ne; [exact E|].
  intros <-. rewrite fresh_loc_None in E. discriminate.
Qed.



Lemma split_on_nonempty c s : split_on c s ≠ [].
Proof.
  destruct s as [|a s]; simpl; [discriminate|].
  destruct (decide (a = c)); [discriminate|].
  destruct (split_on c s); discriminate.
Qed.

(** Splitting distributes over a separator, and a string without the
    separator is its only segment: the last segment of [p.s] is the last
    segment of [s], and a name without a dot is its own last segment. *)
Lemma split_on_app c p s :
  split_on c (p +:+ String c s) = (split_on c p ++ split_on c s)%list.
Proof.
  induction p as [|a p IH]; simpl.
  - rewrite decide_True by done. reflexivity.
  - destruct (decide (a = c)); [by rewrite IH|].
    rewrite IH. pose proof (split_on_nonempty c p).
    destruct (split_on c p); [done | reflexivity].
Qed.

Lemma split_on_plain c s :
  c ∉ String.list_ascii_of_string s → split_on c s = [s].
Proof.
  induction s as [|a s IH]; simpl; [reflexivity|]. intros Hc.
  rewrite decide_False by (intros ->; apply Hc; left).
  rewrite IH; [reflexivity|]. intros H. apply Hc. by right.
Qed.

Lemma last_segment_dot p s : last_segment (p +:+ String "." s) = last_segment s.
Proof.
  unfold last_segment. rewrite split_on_app.
  pose proof (split_on_nonempty "." s) as Hs.
  rewrite last_app. destruct (last (split_on "." s)) as [x|] eqn:L;
    [reflexivity|].
  by apply last_None in L.
Qed.

Lemma last_segment_plain s :
  "."%char ∉ String.list_ascii_of_string s → last_segment s = s.
Proof. intros H. unfold last_segment. by rewrite split_on_plain. Qed.

End JsFacts.

(** ** [getMove] and [processMove] *)

Module DispatchFacts.
Import Js JsFacts GameJs.

Lemma global_move_read_only game name : read_only (global_move game name).
Proof. unfold global_move. read_only_tac. Qed.

Lemma phase_move_read_only game phase name :
  read_only (phase_move game phase name).
Proof. unfold phase_move. read_only_tac. Qed.

Lemma getMove_read_only game ctx name : read_only (getMove game ctx name).
Proof.
  unfold getMove. apply read_only_bind; [auto with read_only|]. intros phase.
  case_bool_decide; [|apply global_move_read_only].
  apply read_only_bind; [auto with read_only|]. intros phases.
  destruct (defined phases); [|apply global_move_read_only].
  apply read_only_bind; [auto with read_only|]. intros ph.
  apply read_only_bind; [auto with read_only|]. intros pmoves.
  destruct (defined pmoves);
    [apply phase_move_read_only | apply global_move_read_only].
Qed.

Lemma unwrap_read_only moveFn : read_only (unwrap moveFn).
Proof. unfold unwrap. read_only_tac. Qed.

(** In the default phase [getMove] is the lookup in the global moves. *)
Lemma getMove_default_phase game ctx name h :
  get_prop h ctx "phase" = inr (VStr "default") →
  getMove game ctx name h = global_move game name h.
Proof.
  intros E. unfold getMove. rewrite (bind_Ret _ _ _ _ _ (get_run _ _ _ _ E)).
  rewrite bool_decide_false; [reflexivity | intros ?; congruence].
Qed.

Section dispatch.
Variable FnWrap : value → value → M heap value.
Variable call : value → list value → M heap value.


(** C6.  When the type of the action resolves to a function [lf],
    processMove allocates a new object that carries the enumerable fields
    of ctx with playerID set to action.playerID, wraps the function with
    FnWrap and the plugins of the game, and applies the result to
    [G; ctx'] followed by the elements of action.args.  The new object is
    at a location the heap did not use, so the object of ctx and every
    other object are as they were when the function is entered. *)
Theorem processMove_invokes game og G la oa lctx octx h
    entry lf cf pf largs elems pa :
  h !! game = Some og →
  h !! la = Some oa →
  h !! lctx = Some octx →
  getMove (VRef game) (VRef lctx) (field (own_props oa) "type") h
    = Ret entry h →
  unwrap entry h = Ret (VRef lf) h →
  h !! lf = Some (Obj (KFunction cf) pf) →
  field (own_props oa) "args" = VRef largs →
  h !! largs = Some (Obj (KArray elems) pa) →
  let playerID := field (own_props oa) "playerID" in
  let plugins := field (own_props og) "plugins" in
  let fields' := <["playerID" := playerID]> (enum_props octx) in
  let l' := fresh_loc h in
  let h' := <[l' := Obj KObject fields']> h in
  processMove FnWrap call (VRef game) G (VRef la) (VRef lctx) h
    = (fn ← FnWrap (VRef lf) plugins;
       call fn ([G; VRef l'] ++ elems)) h'
  ∧ fields' !! "playerID" = Some playerID
  ∧ (∀ k, k ≠ "playerID" → fields' !! k = enum_props octx !! k)
  ∧ h !! l' = None
  ∧ h' !! lctx = Some octx
  ∧ (∀ l, l ≠ l' → h' !! l = h !! l).
Proof.
  intros Hg Ha Hctx Hentry Hunwrap Hf Hargs Harr playerID plugins fields' l' h'.
  assert (Hl' : h !! l' = None) by apply fresh_loc_None.
  split; [|split; [|split; [|split; [|split]]]].
  - unfold processMove.
    rewrite (bind_Ret _ _ _ _ _ (get_run _ _ _ _ (get_prop_obj _ _ _ _ Ha))).
    rewrite (bind_Ret _ _ _ _ _ Hentry).
    rewrite (bind_Ret _ _ _ _ _ Hunwrap).
    rewrite (bind_Ret _ _ _ _ _ (gets_run _ _)).
    unfold instanceof_Function at 1. rewrite (obj_at_Some _ _ _ Hf).
    cbn [kind].
    assert (Hw : withPlayerID (VRef lctx) (VRef la) h = Ret (VRef l') h').
    { unfold withPlayerID.
      rewrite (bind_Ret _ _ _ _ _ (gets_run _ _)).
      rewrite (bind_Ret _ _ _ _ _
                 (get_run _ _ _ _ (get_prop_obj _ _ _ _ Ha))).
      unfold spread_props. cbn [boxed]. rewrite (obj_at_Some _ _ _ Hctx).
      apply new_run. }
    rewrite (bind_Ret _ _ _ _ _ Hw).
    assert (Ha' : h' !! la = Some oa) by (apply alloc_frame; exact Ha).
    assert (Hg' : h' !! game = Some og) by (apply alloc_frame; exact Hg).
    assert (Harr' : h' !! largs = Some (Obj (KArray elems) pa))
      by (apply alloc_frame; exact Harr).
    rewrite (bind_Ret _ _ _ _ _
               (get_run _ _ _ _ (get_prop_obj _ _ _ _ Ha'))).
    rewrite Hargs.
    rewrite (bind_Ret _ _ _ _ _ (gets_run _ _)).
    unfold concat. rewrite (obj_at_Some _ _ _ Harr'). cbn [kind].
    rewrite (bind_Ret _ _ _ _ _
               (get_run _ _ _ _ (get_prop_obj _ _ _ _ Hg'))).
    reflexivity.
  - apply lookup_insert_eq.
  - intros k Hk. apply lookup_insert_ne. congruence.
  - exact Hl'.
  - apply alloc_frame. exact Hctx.
  - intros l Hl. apply lookup_insert_ne. congruence.
Qed.

End dispatch.
End DispatchFacts.

(** ** The normalizer [Game] *)

Module NormalizerFacts.
Import Js JsFacts GameJs.





Lemma moveNameSet_read_only game : read_only (moveNameSet game).
Proof. unfold moveNameSet. read_only_tac. Qed.

Lemma moveNameSet_inv game h names h1 :
  moveNameSet game h = Ret names h1 →
  h1 = h ∧
  ∃ moves moveKeys flow moveMap mapKeys,
    get_prop h game "moves" = inr moves ∧
    getOwnPropertyNames h moves = inr moveKeys ∧
    get_prop h game "flow" = inr flow ∧
    get_prop h flow "moveMap" = inr moveMap ∧
    keys h moveMap = inr mapKeys ∧
    names = collect_names moveKeys mapKeys.
Proof.
  intros H. split; [eapply read_only_Ret, H; apply moveNameSet_read_only|].
  unfold moveNameSet in H.
  apply bind_Ret_inv in H as (moves & ? & [-> Hm]%get_Ret_inv & H).
  apply bind_Ret_inv in H as (moveKeys & ? & [-> Hmk]%reads_Ret_inv & H).
  apply bind_Ret_inv in H as (flow & ? & [-> Hf]%get_Ret_inv & H).
  apply bind_Ret_inv in H as (moveMap & ? & [-> Hmm]%get_Ret_inv & H).
  apply bind_Ret_inv in H as (mapKeys & ? & [-> Hpk]%reads_Ret_inv & H).
  inversion H; subst.
  exists moves, moveKeys, flow, moveMap, mapKeys. auto 10.
Qed.

Section normalizer.
Variable FlowWithPhases : value → M heap value.
Abbreviation Game := (GameJs.Game FlowWithPhases).

Lemma Game_processed c h pm :
  get_prop h c "processMove" = inr pm → defined pm = true →
  Game c h = Ret c h.
Proof.
  intros E D. unfold GameJs.Game.
  rewrite (bind_Ret _ _ _ _ _ (get_run _ _ _ _ E)), D. reflexivity.
Qed.

Lemma Game_raw_inv c h g h' :
  get_prop h c "processMove" = inr VUndefined →
  Game c h = Ret g h' →
  ∃ h1 h3 names,
    fill_defaults c h = Ret tt h1 ∧
    ensure_flow FlowWithPhases c
      (<[fresh_loc h1 := Obj (KFunction (CGetMove c)) ∅]> h1) = Ret tt h3 ∧
    moveNameSet c h3 = Ret names h3 ∧
    (g, h') = processed c h1 h3 names.
Proof.
  intros E H. unfold GameJs.Game in H.
  rewrite (bind_Ret _ _ _ _ _ (get_run _ _ _ _ E)) in H. simpl defined in H.
  cbv iota in H.
  apply bind_Ret_inv in H as ([] & h1 & Hfd & H).
  apply bind_Ret_inv in H as (lg & h2 & Hnew & H).
  rewrite new_run in Hnew. inversion Hnew; subst lg h2; clear Hnew.
  apply bind_Ret_inv in H as ([] & h3 & Hef & H).
  apply bind_Ret_inv in H as (names & h3' & Hn & H).
  pose proof (read_only_Ret _ _ _ _ (moveNameSet_read_only c) Hn); subst h3'.
  apply bind_Ret_inv in H as (fields & h3' & Hsp & H).
  rewrite gets_run in Hsp. inversion Hsp; subst fields h3'; clear Hsp.
  apply bind_Ret_inv in H as (la & h4 & Hnew & H).
  rewrite new_run in Hnew. inversion Hnew; subst la h4; clear Hnew.
  apply bind_Ret_inv in H as (lp & h5 & Hnew & H).
  rewrite new_run in Hnew. inversion Hnew; subst lp h5; clear Hnew.
  rewrite new_run in H. inversion H; subst g h'; clear H.
  exists h1, h3, names. auto.
Qed.

(** The value returned for a raw config is a new object whose
    processMove is a function object. *)
Lemma processed_processMove c h1 h3 names g h' :
  (g, h') = processed c h1 h3 names →
  ∃ lp, get_prop h' g "processMove" = inr (VRef lp).
Proof.
  unfold processed. intros E. inversion E; subst g h'; clear E.
  eexists. erewrite get_prop_obj; [|apply lookup_insert_eq].
  unfold own_props, field. cbn [kind props]. rewrite lookup_insert_eq.
  reflexivity.
Qed.

(** C2.  [Game] is idempotent: a config whose processMove is defined is
    returned as it is, the same reference in the same heap; and whatever
    [Game] returns for a config, raw or not, is returned as it is by a
    second call, which changes nothing in the heap. *)
Theorem Game_idempotent c h :
  (∀ pm, get_prop h c "processMove" = inr pm → pm ≠ VUndefined →
         Game c h = Ret c h)
  ∧ (∀ g h', Game c h = Ret g h' → Game g h' = Ret g h').
Proof.
  split.
  - intros pm E D. apply (Game_processed _ _ pm E). by destruct pm.
  - intros g h' H.
    destruct (get_prop h c "processMove") as [e|pm] eqn:E.
    { unfold GameJs.Game in H.
      rewrite (bind_Throw _ _ _ _ _ (get_throw _ _ _ _ E)) in H. discriminate. }
    destruct (defined pm) eqn:D.
    + pose proof (Game_processed _ _ _ E D) as H1.
      rewrite H1 in H. inversion H; subst. exact H1.
    + destruct pm; try discriminate.
      destruct (Game_raw_inv _ _ _ _ E H) as (h1 & h3 & names & _ & _ & _ & Hp).
      destruct (processed_processMove _ _ _ _ _ _ Hp) as (lp & Hpm).
      apply (Game_processed _ _ _ Hpm). reflexivity.
Qed.

End normalizer.
End NormalizerFacts.

(** ** The config object after [Game] *)

Module ConfigFacts.
Import Js JsFacts GameJs NormalizerFacts.

Lemma fill_lookup_ne k k' v ps : k' ≠ k → fill k v ps !! k' = ps !! k'.
Proof.
  intros Hk. unfold fill. destruct (defined (field ps k)); [reflexivity|].
  apply lookup_insert_ne. congruence.
Qed.

Lemma fill_field_ne k k' v ps : k' ≠ k → field (fill k v ps) k' = field ps k'.
Proof. intros Hk. unfold field. by rewrite fill_lookup_ne. Qed.

Lemma fill_keep k v ps : defined (field ps k) = true → fill k v ps = ps.
Proof. intros D. unfold fill. by rewrite D. Qed.

Lemma fill_undefined k v ps :
  field ps k = VUndefined → fill k v ps !! k = Some v.
Proof. intros D. unfold fill. rewrite D. simpl. apply lookup_insert_eq. Qed.

Lemma fill_defined k v ps :
  defined v = true → defined (field (fill k v ps) k) = true.
Proof.
  intros Dv. unfold fill. destruct (defined (field ps k)) eqn:D; [exact D|].
  unfold field. by rewrite lookup_insert_eq.
Qed.

Lemma defined_false v : defined v = false ↔ v = VUndefined.
Proof. destruct v; simpl; split; congruence. Qed.

Lemma yields_ret v (Q : value → Prop) : Q v → yields (mret v) Q.
Proof. intros HQ h. exists v, h. auto. Qed.

Lemma yields_new o : yields (new o) (fun v => ∃ l, v = VRef l).
Proof.
  intros h. exists (VRef (fresh_loc h)), (<[fresh_loc h := o]> h).
  split; [apply new_run|]. split; [eauto|]. intros l o'. apply alloc_frame.
Qed.

(** One default: the object at [l] has the field filled, every other
    object is kept. *)
Lemma default_to_spec l ps h k mk Q :
  h !! l = Some (Obj KObject ps) → yields mk Q →
  ∃ h2 v, default_to (VRef l) k mk h = Ret tt h2 ∧ Q v
          ∧ h2 !! l = Some (Obj KObject (fill k v ps))
          ∧ ∀ l' o, l' ≠ l → h !! l' = Some o → h2 !! l' = Some o.
Proof.
  intros Hl Hmk. destruct (Hmk h) as (v & h1 & Emk & HQ & Hkeep).
  unfold default_to.
  rewrite (bind_Ret _ _ _ _ _ (get_run _ _ _ _ (get_prop_obj _ _ _ _ Hl))).
  unfold own_props, fill, field. cbn [kind props].
  destruct (defined (default VUndefined (ps !! k))).
  - exists h, v. auto.
  - rewrite (bind_Ret _ _ _ _ _ Emk).
    rewrite (set_run _ _ _ _ _ (Hkeep _ _ Hl)). cbn [kind props].
    eexists _, v. split; [reflexivity|]. split; [exact HQ|].
    split; [apply lookup_insert_eq|].
    intros l' o Hne Hl'. rewrite lookup_insert_ne by congruence. eauto.
Qed.

Lemma fill_defaults_spec l ps h :
  h !! l = Some (Obj KObject ps) →
  ∃ h1 l2 l3 l4 l5,
    fill_defaults (VRef l) h = Ret tt h1
    ∧ h1 !! l = Some (Obj KObject
        (fill "plugins" (VRef l5) (fill "playerView" (VRef l4)
           (fill "moves" (VRef l3) (fill "setup" (VRef l2)
              (fill "name" (VStr "default") ps)))))) 
    ∧ ∀ l' o, l' ≠ l → h !! l' = Some o → h1 !! l' = Some o.
Proof.
  intros Hl. unfold fill_defaults.
  destruct (default_to_spec l ps h "name" _ _ Hl
              (yields_ret (VStr "default") (fun v => v = VStr "default") eq_refl))
    as (ha & v1 & Ea & -> & Hla & Ka).
  destruct (default_to_spec l _ ha "setup" _ _ Hla
              (yields_new (Obj (KFunction CDefaultSetup) ∅)))
    as (hb & v2 & Eb & [l2 ->] & Hlb & Kb).
  destruct (default_to_spec l _ hb "moves" _ _ Hlb
              (yields_new (Obj KObject ∅)))
    as (hc & v3 & Ec & [l3 ->] & Hlc & Kc).
  destruct (default_to_spec l _ hc "playerView" _ _ Hlc
              (yields_new (Obj (KFunction CDefaultPlayerView) ∅)))
    as (hd & v4 & Ed & [l4 ->] & Hld & Kd).
  destruct (default_to_spec l _ hd "plugins" _ _ Hld
              (yields_new (Obj (KArray []) ∅)))
    as (he & v5 & Ee & [l5 ->] & Hle & Ke).
  exists he, l2, l3, l4, l5.
  rewrite (bind_Ret _ _ _ _ _ Ea), (bind_Ret _ _ _ _ _ Eb),
    (bind_Ret _ _ _ _ _ Ec), (bind_Ret _ _ _ _ _ Ed).
  split; [exact Ee|]. split; [exact Hle|]. eauto 10.
Qed.

Lemma fill_lookup_congr k v ps ps0 :
  ps !! k = ps0 !! k → fill k v ps !! k = fill k v ps0 !! k.
Proof.
  intros E. unfold fill, field. rewrite E.
  destruct (defined (default VUndefined (ps0 !! k)));
    [exact E | by rewrite !lookup_insert_eq].
Qed.

Ltac peel_fill := rewrite ?fill_lookup_ne by discriminate.

Lemma filled_default ps l2 l3 l4 l5 k :
  k ∈ defaults →
  filled ps l2 l3 l4 l5 !! k = fill k (default_value l2 l3 l4 l5 k) ps !! k.
Proof.
  unfold defaults, filled. intros Hk.
  repeat (apply elem_of_cons in Hk as [-> | Hk]); [..|inversion Hk];
    cbn [default_value decide]; peel_fill;
    apply fill_lookup_congr; peel_fill; reflexivity.
Qed.

Lemma filled_other ps l2 l3 l4 l5 k :
  k ∉ defaults → filled ps l2 l3 l4 l5 !! k = ps !! k.
Proof.
  unfold defaults, filled. intros Hk.
  rewrite !fill_lookup_ne; [reflexivity|..]; intros ->; apply Hk;
    repeat first [ by left | right ].
Qed.

Lemma filled_kept ps l2 l3 l4 l5 k :
  (k ∈ defaults → defined (field ps k) = true) →
  filled ps l2 l3 l4 l5 !! k = ps !! k.
Proof.
  intros Hk. destruct (decide (k ∈ defaults)) as [Hin|Hout].
  - rewrite filled_default by exact Hin. by rewrite fill_keep by auto.
  - by apply filled_other.
Qed.

Lemma filled_defined ps l2 l3 l4 l5 k :
  k ∈ defaults → defined (field (filled ps l2 l3 l4 l5) k) = true.
Proof.
  intros Hk. unfold field at 1. rewrite filled_default by exact Hk.
  apply fill_defined. unfold default_value. repeat case_decide; reflexivity.
Qed.


Section config.
Variable FlowWithPhases : value → M heap value.
Abbreviation Game := (GameJs.Game FlowWithPhases).

Lemma flow_check_run h flow :
  (if truthy flow then
     pge ← get flow "processGameEvent"; mret (negb (defined pge))
   else mret true) h = Ret (flow_missing h flow) h.
Proof.
  unfold flow_missing. destruct (truthy flow) eqn:T; [|reflexivity].
  rewrite bind_run. unfold get, reads, get_prop.
  destruct (boxed h flow) eqn:B; [reflexivity|].
  destruct flow; discriminate.
Qed.

Lemma ensure_flow_spec l ps h h3 :
  h !! l = Some (Obj KObject ps) →
  (∀ hb o f ha, hb !! l = Some o →
                FlowWithPhases (VRef l) hb = Ret f ha → ha !! l = Some o) →
  ensure_flow FlowWithPhases (VRef l) h = Ret tt h3 →
  ∃ ps', h3 !! l = Some (Obj KObject ps')
    ∧ (∀ k, k ≠ "flow" → ps' !! k = ps !! k)
    ∧ (flow_missing h (field ps "flow") = true →
       ∃ f ha, FlowWithPhases (VRef l) h = Ret f ha ∧ ps' !! "flow" = Some f).
Proof.
  intros Hl Hframe H. unfold ensure_flow in H.
  rewrite (bind_Ret _ _ _ _ _ (get_run _ _ _ _ (get_prop_obj _ _ _ _ Hl))) in H.
  unfold own_props in H. cbn [kind props] in H.
  rewrite (bind_Ret _ _ _ _ _ (flow_check_run _ _)) in H.
  fold (field ps "flow") in H.
  destruct (flow_missing h (field ps "flow")).
  - apply bind_Ret_inv in H as (f & ha & Ef & H).
    pose proof (Hframe _ _ _ _ Hl Ef) as Hla.
    rewrite (set_run _ _ _ _ _ Hla) in H. cbn [kind props] in H.
    inversion H; subst h3; clear H.
    exists (<["flow" := f]> ps). split; [apply lookup_insert_eq|]. split.
    + intros k Hk. apply lookup_insert_ne. congruence.
    + intros _. exists f, ha. split; [exact Ef | apply lookup_insert_eq].
  - inversion H; subst h3. exists ps. split; [exact Hl|]. split; [auto|].
    discriminate.
Qed.

(** The heap built by the last allocations keeps the objects of the heap
    in which the names were collected. *)
Lemma processed_keeps c h1 h3 names g h' l o :
  (g, h') = processed c h1 h3 names → h3 !! l = Some o →
  h' !! l = Some o ∧ g ≠ VRef l.
Proof.
  unfold processed. intros E Hl. inversion E; subst g h'; clear E. split.
  - by do 3 apply alloc_frame.
  - intros [= E]. pose proof (fresh_loc_None
      (<[fresh_loc (<[fresh_loc h3 := Obj (KArray (VStr <$> names)) ∅]> h3)
           := Obj (KFunction (CProcessMove c)) ∅]>
         (<[fresh_loc h3 := Obj (KArray (VStr <$> names)) ∅]> h3))) as Hn.
    rewrite E in Hn. erewrite alloc_frame in Hn; [discriminate|].
    by apply alloc_frame.
Qed.


Lemma names_of_ok pick (h : heap) v :
  v ≠ VUndefined → v ≠ VNull → ∃ ks, names_of pick h v = inr ks.
Proof. intros H1 H2. unfold names_of. destruct v; try done; cbn; eauto. Qed.

(** [Game] returns on a plain raw config without a flow whose moves are not
    null, as soon as [FlowWithPhases] returns an engine with a moveMap and
    keeps the objects of the heap. *)
Lemma Game_returns l ps h :
  h !! l = Some (Obj KObject ps) →
  field ps "processMove" = VUndefined →
  truthy (field ps "flow") = false →
  field ps "moves" ≠ VNull →
  (∀ hb, ∃ lf engine ha,
     FlowWithPhases (VRef l) hb = Ret (VRef lf) ha
     ∧ (∀ l' o, hb !! l' = Some o → ha !! l' = Some o)
     ∧ lf ≠ l ∧ ha !! lf = Some engine
     ∧ field (own_props engine) "moveMap" ≠ VUndefined
     ∧ field (own_props engine) "moveMap" ≠ VNull) →
  ∃ g h', Game (VRef l) h = Ret g h'.
Proof.
  intros Hl Hraw Hnoflow Hmoves Hengine. unfold GameJs.Game.
  rewrite (bind_Ret _ _ _ _ _ (get_run _ _ _ _ (get_prop_obj _ _ _ _ Hl))).
  unfold own_props at 1. cbn [kind props]. rewrite Hraw. cbn [defined].
  destruct (fill_defaults_spec _ _ _ Hl)
    as (h1 & l2 & l3 & l4 & l5 & Hfd & Hl1 & _).
  fold (filled ps l2 l3 l4 l5) in Hl1.
  rewrite (bind_Ret _ _ _ _ _ Hfd), (bind_Ret _ _ _ _ _ (new_run _ _)).
  set (h2 := <[fresh_loc h1 := Obj (KFunction (CGetMove (VRef l))) ∅]> h1).
  assert (Hl2 : h2 !! l = Some (Obj KObject (filled ps l2 l3 l4 l5)))
    by (by apply alloc_frame).
  assert (Hfl : field (filled ps l2 l3 l4 l5) "flow" = field ps "flow").
  { unfold field. rewrite filled_other; [reflexivity|]. unfold defaults.
    intros Hk.
    repeat (apply elem_of_cons in Hk as [Hk | Hk]; [discriminate|]).
    inversion Hk. }
  destruct (Hengine h2) as (lf & engine & ha & Ef & Hkeep & Hne & Hlf & Hmm1 & Hmm2).
  set (ps3 := <["flow" := VRef lf]> (filled ps l2 l3 l4 l5)).
  set (h3 := <[l := Obj KObject ps3]> ha).
  assert (Hef : ensure_flow FlowWithPhases (VRef l) h2 = Ret tt h3).
  { unfold ensure_flow.
    rewrite (bind_Ret _ _ _ _ _ (get_run _ _ _ _ (get_prop_obj _ _ _ _ Hl2))).
    unfold own_props at 1. cbn [kind props].
    rewrite (bind_Ret _ _ _ _ _ (flow_check_run _ _)).
    unfold flow_missing. rewrite Hfl, Hnoflow. cbn [negb orb].
    rewrite (bind_Ret _ _ _ _ _ Ef).
    by rewrite (set_run _ _ _ _ _ (Hkeep _ _ Hl2)). }
  rewrite (bind_Ret _ _ _ _ _ Hef).
  assert (Hl3 : h3 !! l = Some (Obj KObject ps3)) by apply lookup_insert_eq.
  assert (Hlf3 : h3 !! lf = Some engine)
    by (unfold h3; by rewrite lookup_insert_ne by congruence).
  assert (Hmv : field ps3 "moves" ≠ VUndefined ∧ field ps3 "moves" ≠ VNull).
  { unfold field, ps3. rewrite lookup_insert_ne by discriminate.
    rewrite filled_default by (unfold defaults; set_solver).
    unfold fill. destruct (defined (field ps "moves")) eqn:D.
    - fold (field ps "moves"). split; [|exact Hmoves].
      intros E. rewrite E in D. discriminate.
    - rewrite lookup_insert_eq. cbn. split; discriminate. }
  destruct Hmv as [Hmv1 Hmv2].
  destruct (names_of_ok own_props h3 _ Hmv1 Hmv2) as [moveKeys Hmk].
  destruct (names_of_ok enum_props h3 _ Hmm1 Hmm2) as [mapKeys Hpk].
  assert (Hn : moveNameSet (VRef l) h3
               = Ret (collect_names moveKeys mapKeys) h3).
  { unfold moveNameSet.
    rewrite (bind_Ret _ _ _ _ _ (get_run _ _ _ _ (get_prop_obj _ _ _ _ Hl3))).
    unfold own_props at 1. cbn [kind props].
    assert (R1 : reads (fun h => getOwnPropertyNames h (field ps3 "moves")) h3
                 = Ret moveKeys h3)
      by (unfold reads, getOwnPropertyNames; by rewrite Hmk).
    rewrite (bind_Ret _ _ _ _ _ R1).
    rewrite (bind_Ret _ _ _ _ _ (get_run _ _ _ _ (get_prop_obj _ _ _ _ Hl3))).
    unfold own_props at 1. cbn [kind props].
    replace (field ps3 "flow") with (VRef lf)
      by (unfold field, ps3; by rewrite lookup_insert_eq).
    rewrite (bind_Ret _ _ _ _ _ (get_run _ _ _ _ (get_prop_obj _ _ _ _ Hlf3))).
    assert (R2 : reads (fun h => keys h (field (own_props engine) "moveMap")) h3
                 = Ret mapKeys h3)
      by (unfold reads, keys; by rewrite Hpk).
    by rewrite (bind_Ret _ _ _ _ _ R2). }
  rewrite (bind_Ret _ _ _ _ _ Hn), (bind_Ret _ _ _ _ _ (gets_run _ _)).
  rewrite (bind_Ret _ _ _ _ _ (new_run _ _)).
  rewrite (bind_Ret _ _ _ _ _ (new_run _ _)).
  rewrite new_run. eauto.
Qed.

(** C9.  [Game] writes to the config object it is given.  For a raw
    config that is a plain object at [l], and a [FlowWithPhases] that
    leaves the object at [l] as it finds it, the object at [l] after the
    call has each of name, setup, moves, playerView and plugins defined:
    name is "default" where it was undefined, the other four are
    references where they were undefined; flow holds the engine returned
    by [FlowWithPhases] where the config had no flow with a
    processGameEvent; every other field is kept.  The value returned is
    another object, and the object at [l] differs from the one before
    the call as soon as one of the five fields was undefined. *)
Theorem Game_mutates_config l ps h g h' :
  h !! l = Some (Obj KObject ps) →
  field ps "processMove" = VUndefined →
  (∀ hb o f ha, hb !! l = Some o →
                FlowWithPhases (VRef l) hb = Ret f ha → ha !! l = Some o) →
  Game (VRef l) h = Ret g h' →
  ∃ ps',
    h' !! l = Some (Obj KObject ps')
    ∧ g ≠ VRef l
    ∧ (∀ k, k ∈ defaults → defined (field ps' k) = true)
    ∧ (field ps "name" = VUndefined → ps' !! "name" = Some (VStr "default"))
    ∧ (∀ k, k ∈ defaults → k ≠ "name" → field ps k = VUndefined →
            ∃ l', ps' !! k = Some (VRef l'))
    ∧ (field ps "flow" ≠ VRef l →
       (∀ lf, field ps "flow" = VRef lf → is_Some (h !! lf)) →
       flow_missing h (field ps "flow") = true →
       ∃ hb f ha, FlowWithPhases (VRef l) hb = Ret f ha
                  ∧ ps' !! "flow" = Some f)
    ∧ (∀ k, k ≠ "flow" → (k ∈ defaults → defined (field ps k) = true) →
            ps' !! k = ps !! k)
    ∧ ((∃ k, k ∈ defaults ∧ field ps k = VUndefined) → h' !! l ≠ h !! l).
Proof.
  intros Hl Hraw Hframe H.
  assert (E : get_prop h (VRef l) "processMove" = inr VUndefined).
  { rewrite (get_prop_obj _ _ _ _ Hl). unfold own_props. cbn [kind props].
    fold (field ps "processMove"). by rewrite Hraw. }
  destruct (Game_raw_inv _ _ _ _ _ E H) as (h1 & h3 & names & Hfd & Hef & _ & Hp).
  destruct (fill_defaults_spec _ _ _ Hl) as (h1' & l2 & l3 & l4 & l5 & Hfd' & Hl1 & Hkeep).
  rewrite Hfd in Hfd'. inversion Hfd'; subst h1'; clear Hfd'.
  fold (filled ps l2 l3 l4 l5) in Hl1.
  pose proof (alloc_frame _ (Obj (KFunction (CGetMove (VRef l))) ∅) _ _ Hl1) as Hl2.
  destruct (ensure_flow_spec _ _ _ _ Hl2 Hframe Hef) as (ps' & Hl3 & Hother & Hflow).
  destruct (processed_keeps _ _ _ _ _ _ _ _ Hp Hl3) as [Hl' Hg].
  assert (Hdef : ∀ k, k ∈ defaults → ps' !! k = filled ps l2 l3 l4 l5 !! k).
  { intros k Hk. apply Hother. intros ->. unfold defaults in Hk.
    repeat (apply elem_of_cons in Hk as [Hk | Hk]; [discriminate|]).
    inversion Hk. }
  exists ps'. split; [exact Hl'|]. split; [exact Hg|].
  split; [|split; [|split; [|split; [|split]]]].
  - intros k Hk. unfold field. rewrite (Hdef _ Hk). by apply filled_defined.
  - intros Hu. rewrite Hdef by (by left).
    rewrite filled_default by (by left). by apply fill_undefined.
  - intros k Hk Hname Hu. rewrite (Hdef _ Hk), (filled_default _ _ _ _ _ _ Hk).
    rewrite (fill_undefined _ _ _ Hu). unfold default_value.
    rewrite decide_False by exact Hname. repeat case_decide; eauto.
  - intros Hself Hlive Hmiss.
    assert (Hfl : field (filled ps l2 l3 l4 l5) "flow" = field ps "flow").
    { unfold field. rewrite filled_other; [reflexivity|].
      unfold defaults. intros Hk.
      repeat (apply elem_of_cons in Hk as [Hk | Hk]; [discriminate|]).
      inversion Hk. }
    rewrite Hfl in Hflow.
    destruct Hflow as (f & ha & Ef & Hf); [|eauto].
    etrans; [|exact Hmiss]. unfold flow_missing. f_equal.
    destruct (field ps "flow") as [| |b|n|s|lf] eqn:Efl; try reflexivity.
    destruct (Hlive lf eq_refl) as [o Ho].
    assert (lf ≠ l) by congruence.
    rewrite (get_prop_obj _ _ _ _ Ho).
    by rewrite (get_prop_obj _ _ _ _
                  (alloc_frame _ _ _ _ (Hkeep _ _ ltac:(eassumption) Ho))).
  - intros k Hk Hd. rewrite (Hother _ Hk). by apply filled_kept.
  - intros (k & Hk & Hu) Heq. rewrite Hl', Hl in Heq.
    inversion Heq as [Hps]. 
    pose proof (filled_defined ps l2 l3 l4 l5 k Hk) as Hd.
    unfold field in Hd. rewrite <- (Hdef _ Hk), Hps in Hd.
    fold (field ps k) in Hd. rewrite Hu in Hd. discriminate.
Qed.

End config.
End ConfigFacts.

(** ** The socket middleware *)

Module MultiplayerFacts.
Import Js JsFacts MultiplayerJs.

(** A number never prints as a name of the white list: its first character
    is a digit or a minus sign. *)
Lemma pretty_N_go_head x s :
  pretty_N_go x s = s
  ∨ ∃ n rest, pretty_N_go x s = String (pretty_N_char n) rest.
Proof.
  revert s. induction (N.lt_wf_0 x) as [x _ IH]. intros s.
  destruct (decide (x = 0)%N) as [->|Hx]; [left; apply pretty_N_go_0|].
  assert (Hpos : (0 < x)%N) by (apply N.neq_0_lt_0; exact Hx).
  right. rewrite pretty_N_go_step by exact Hpos.
  destruct (IH (x `div` 10)%N (N.div_lt x 10 Hpos eq_refl)
              (String (pretty_N_char (x `mod` 10)) s)) as [E|(n & rest & E)];
    rewrite E; eauto.
Qed.

Lemma pretty_N_char_not_letter n c :
  (Ascii.nat_of_ascii c > 57)%nat → pretty_N_char n ≠ c.
Proof.
  intros Hc <-. unfold pretty_N_char in Hc.
  repeat case_match; vm_compute in Hc; lia.
Qed.

Lemma pretty_Z_not_name (n : Z) c rest :
  (Ascii.nat_of_ascii c > 57)%nat → pretty n ≠ String c rest.
Proof.
  intros Hc. unfold pretty, pretty_Z.
  assert (Hpos : ∀ p, pretty (N.pos p) ≠ String c rest).
  { intros p. unfold pretty, pretty_N. rewrite decide_False by done.
    destruct (pretty_N_go_head (N.pos p) "") as [E|(m & r & E)]; rewrite E;
      [discriminate|].
    intros [= E1 _]. by apply (pretty_N_char_not_letter m c). }
  destruct n as [|p|p].
  - intros [= <- _]. vm_compute in Hc. lia.
  - apply Hpos.
  - unfold pretty, pretty_positive. simpl. intros [= <- _].
    vm_compute in Hc. lia.
Qed.

Lemma to_string_name v c rest :
  (Ascii.nat_of_ascii c > 57)%nat → String c rest ≠ "undefined" →
  String c rest ≠ "null" → String c rest ≠ "true" → String c rest ≠ "false" →
  String c rest ≠ "[object Object]" →
  to_string v = String c rest → v = VStr (String c rest).
Proof.
  intros Hc H1 H2 H3 H4 H5. destruct v as [| |[]|n|s|l]; simpl; try congruence.
  intros E. by destruct (pretty_Z_not_name n c rest Hc).
Qed.

(** The condition of the middleware holds exactly for the two types of the
    white list. *)
Lemma whiteListed_spec type :
  whiteListed type
  = bool_decide (type = VStr "MAKE_MOVE" ∨ type = VStr "END_TURN").
Proof.
  unfold whiteListed, whiteListedActions.
  destruct (decide (to_string type = "MAKE_MOVE")) as [E|N1].
  { apply to_string_name in E; [|vm_compute; lia|discriminate..]. subst type.
    rewrite bool_decide_true by auto. reflexivity. }
  destruct (decide (to_string type = "END_TURN")) as [E|N2].
  { apply to_string_name in E; [|vm_compute; lia|discriminate..]. subst type.
    rewrite bool_decide_true by auto. reflexivity. }
  rewrite lookup_insert_ne by congruence.
  rewrite lookup_singleton_ne by congruence.
  rewrite bool_decide_false; [reflexivity|].
  intros [->| ->]; simpl in *; congruence.
Qed.

(** Steps of a computation on the heap of the world. *)
Lemma step_get {B} v k x (K : value → M world B) w :
  get_prop (w_heap w) v k = inr x →
  (on_heap (get v k) ≫= K) w = K x w.
Proof.
  intros E. rewrite bind_run. unfold on_heap.
  rewrite (get_run _ _ _ _ E). by destruct w.
Qed.

Lemma step_set {B} l o k x (K : unit → M world B) w :
  w_heap w !! l = Some o →
  (on_heap (set (VRef l) k x) ≫= K) w
  = K tt (World (<[l := Obj (kind o) (<[k := x]> (props o))]> (w_heap w))
            (w_wire w)).
Proof.
  intros E. rewrite bind_run. unfold on_heap.
  by rewrite (set_run _ _ _ _ _ E).
Qed.

(** Reading a field of the object at [lt] after the object at [la], which
    may be the same one, has been replaced. *)
Lemma field_after_write (h : heap) la pa' lt pt k :
  h !! lt = Some (Obj KObject pt) →
  (la = lt → field pa' k = field pt k) →
  get_prop (<[la := Obj KObject pa']> h) (VRef lt) k = inr (field pt k).
Proof.
  intros Ht Hsame. destruct (decide (la = lt)) as [->|Hne].
  - erewrite get_prop_obj; [|apply lookup_insert_eq].
    unfold own_props. cbn [kind props]. by rewrite Hsame.
  - rewrite (get_prop_obj _ lt (Obj KObject pt)); [reflexivity|].
    by rewrite lookup_insert_ne by exact Hne.
Qed.

(** The instance: the constructor sets gameid to 'default', player to null
    and socket to the socket it is given; updatePlayer and updateGameID
    overwrite the player and the gameid. *)
Lemma constructor_run io socketImpl w :
  defined socketImpl = true →
  let this := fresh_loc (w_heap w) in
  constructor io socketImpl w
  = Ret (VRef this)
      (World (<[this := Obj KObject
                          (<["socket" := socketImpl]>
                             (<["player" := VNull]>
                                (<["gameid" := VStr "default"]> ∅)))]>
                (w_heap w))
         (w_wire w)).
Proof.
  intros D this. unfold constructor. rewrite bind_run.
  unfold on_heap at 1. rewrite new_run. fold this.
  rewrite (step_set _ (Obj KObject ∅)) by apply lookup_insert_eq.
  cbn [kind props w_heap w_wire]. rewrite insert_insert_eq.
  rewrite (step_set _ (Obj KObject (<["gameid" := VStr "default"]> ∅)))
    by apply lookup_insert_eq.
  cbn [kind props w_heap w_wire]. rewrite insert_insert_eq. rewrite D.
  rewrite (step_set _ (Obj KObject (<["player" := VNull]>
                                      (<["gameid" := VStr "default"]> ∅))))
    by apply lookup_insert_eq.
  cbn [kind props w_heap w_wire]. rewrite insert_insert_eq. reflexivity.
Qed.

Lemma updatePlayer_run lt pt id w :
  w_heap w !! lt = Some (Obj KObject pt) →
  updatePlayer (VRef lt) id w
  = Ret tt (World (<[lt := Obj KObject (<["player" := id]> pt)]> (w_heap w))
              (w_wire w)).
Proof.
  intros Ht. unfold updatePlayer, on_heap. by rewrite (set_run _ _ _ _ _ Ht).
Qed.

Lemma updateGameID_run lt pt sock id w :
  w_heap w !! lt = Some (Obj KObject pt) →
  field pt "socket" = VRef sock →
  let h' := <[lt := Obj KObject (<["gameid" := id]> pt)]> (w_heap w) in
  updateGameID (VRef lt) id w
  = Ret tt (World h' (w_wire w
                      ++ [Emit (VRef sock) "sync" id (spread_props h' id)])%list).
Proof.
  intros Ht Hsock h'. unfold updateGameID.
  rewrite (step_set _ _ _ _ _ _ Ht). cbn [kind props].
  assert (Hs : get_prop h' (VRef lt) "socket" = inr (VRef sock)).
  { rewrite <- Hsock. apply field_after_write; [exact Ht|].
    intros _. unfold field. by rewrite lookup_insert_ne by discriminate. }
  rewrite (step_get _ _ (VRef sock)) by exact Hs. cbn [truthy].
  rewrite (step_get _ _ (VRef sock)) by exact Hs. reflexivity.
Qed.

Section middleware.
Variable getState : M world value.
Variable next : value → M world value.
Abbreviation SocketUpdate := (MultiplayerJs.SocketUpdate getState next).

(** The world left by the middleware, for an action and an instance that
    are plain objects when the inner dispatch has returned. *)
Lemma SocketUpdate_run lt la w st w0 result w1 pa pt sock _id :
  getState w = Ret st w0 →
  next (VRef la) w0 = Ret result w1 →
  w_heap w1 !! la = Some (Obj KObject pa) →
  w_heap w1 !! lt = Some (Obj KObject pt) →
  field pt "socket" = VRef sock →
  get_prop (w_heap w1) st "_id" = inr _id →
  SocketUpdate (VRef lt) (VRef la) w
  = Ret result
      (if whiteListed (field pa "type") then
         let fields := tagged _id (field pt "gameid") (field pt "player") pa in
         World (<[la := Obj KObject fields]> (w_heap w1))
           (w_wire w1 ++ [Emit (VRef sock) "action" (VRef la) fields])
       else w1).
Proof.
  intros Hst Hnext Ha Ht Hsock Hid. unfold MultiplayerJs.SocketUpdate.
  rewrite (bind_Ret _ _ _ _ _ Hst), (bind_Ret _ _ _ _ _ Hnext).
  rewrite (step_get _ _ (field pa "type"))
    by (by rewrite (get_prop_obj _ _ _ _ Ha)).
  destruct (whiteListed (field pa "type")); [|reflexivity].
  rewrite bind_run.
  rewrite (step_get _ _ _id) by exact Hid.
  rewrite (step_set _ _ _ _ _ _ Ha). cbn [kind props w_heap w_wire].
  assert (Hsame : la = lt → pa = pt).
  { intros ->. rewrite Ht in Ha. by inversion Ha. }
  rewrite (step_get _ _ (field pt "gameid")).
  2:{ cbn [w_heap]. apply field_after_write; [exact Ht|].
      intros ->%Hsame. unfold field.
      by rewrite !lookup_insert_ne by discriminate. }
  rewrite (step_set _ (Obj KObject (<["_id" := _id]> pa)))
    by apply lookup_insert_eq.
  cbn [kind props w_heap w_wire]. rewrite insert_insert_eq.
  rewrite (step_get _ _ (field pt "player")).
  2:{ cbn [w_heap]. apply field_after_write; [exact Ht|].
      intros ->%Hsame. unfold field.
      by rewrite !lookup_insert_ne by discriminate. }
  rewrite (step_set _ (Obj KObject (<["_gameid" := field pt "gameid"]>
                                      (<["_id" := _id]> pa))))
    by apply lookup_insert_eq.
  cbn [kind props w_heap w_wire]. rewrite insert_insert_eq.
  rewrite (step_get _ _ (VRef sock)).
  2:{ cbn [w_heap]. rewrite <- Hsock.
      apply field_after_write; [exact Ht|].
      intros ->%Hsame. unfold field.
      by rewrite !lookup_insert_ne by discriminate. }
  unfold emit, spread_props. cbn [w_heap w_wire boxed].
  rewrite (obj_at_Some _ _ _ (lookup_insert_eq _ _ _)). reflexivity.
Qed.

Lemma state_id_read (h : heap) st :
  st ≠ VUndefined → st ≠ VNull → ∃ _id, get_prop h st "_id" = inr _id.
Proof.
  intros H1 H2. unfold get_prop. destruct st; try done; cbn [boxed]; eauto.
Qed.


(** C10.  For an action of the white list, the _id carried by the
    message is the _id field of the state object that getState returned
    before [next] was applied; when [next] has not written to that
    object, it is the _id the state had before the action.  The
    middleware returns the result of [next], and apart from the tags on
    the action object it leaves every object as [next] left it. *)
Theorem SocketUpdate_id lt la w st w0 result w1 pa pt sock :
  getState w = Ret st w0 →
  next (VRef la) w0 = Ret result w1 →
  w_heap w1 !! la = Some (Obj KObject pa) →
  w_heap w1 !! lt = Some (Obj KObject pt) →
  field pt "socket" = VRef sock →
  st ≠ VUndefined → st ≠ VNull →
  field pa "type" = VStr "MAKE_MOVE" ∨ field pa "type" = VStr "END_TURN" →
  ∃ w2 fields _id,
    SocketUpdate (VRef lt) (VRef la) w = Ret result w2
    ∧ w_wire w2
      = (w_wire w1 ++ [Emit (VRef sock) "action" (VRef la) fields])%list
    ∧ fields !! "_id" = Some _id
    ∧ get_prop (w_heap w1) st "_id" = inr _id
    ∧ ((∀ ls, st = VRef ls → w_heap w1 !! ls = w_heap w0 !! ls) →
       get_prop (w_heap w0) st "_id" = inr _id)
    ∧ (∀ l, l ≠ la → w_heap w2 !! l = w_heap w1 !! l).
Proof.
  intros Hst Hnext Ha Ht Hsock Hu Hn Hty.
  destruct (state_id_read (w_heap w1) st Hu Hn) as [_id Hid].
  eexists _, _, _id.
  split; [exact (SocketUpdate_run lt la w st w0 result w1 pa pt sock _id
                    Hst Hnext Ha Ht Hsock Hid)|].
  rewrite whiteListed_spec, bool_decide_true by exact Hty.
  cbn [w_wire w_heap]. split; [reflexivity|]. split; [|split; [|split]].
  - unfold tagged. by rewrite !lookup_insert_ne, lookup_insert_eq by discriminate.
  - exact Hid.
  - intros Hkeep. rewrite <- Hid. unfold get_prop.
    destruct st as [| |b|n|s|ls]; try reflexivity.
    cbn [boxed]. unfold obj_at. by rewrite (Hkeep ls eq_refl).
  - intros l Hl. apply lookup_insert_ne. congruence.
Qed.

End middleware.
End MultiplayerFacts.

(** ** The resolution order of [getMove] *)

Module ResolutionFacts.
Import Js JsFacts GameJs DispatchFacts.




(** [getMove] takes one arm or the other, never both. *)
Lemma getMove_cases game ctx name h phase b :
  get_prop h ctx "phase" = inr phase →
  declares_moves h game phase = inr b →
  getMove game ctx name h
  = if b then phase_move game phase name h else global_move game name h.
Proof.
  intros Hp Hb. unfold getMove, declares_moves in *.
  rewrite (bind_Ret _ _ _ _ _ (get_run _ _ _ _ Hp)).
  case_bool_decide; [|by inversion Hb].
  destruct (get_prop h game "phases") as [e|phases] eqn:E1; [discriminate|].
  rewrite (bind_Ret _ _ _ _ _ (get_run _ _ _ _ E1)).
  destruct (defined phases); [|by inversion Hb].
  destruct (get_prop h phases (to_string phase)) as [e|ph] eqn:E2;
    [discriminate|].
  rewrite (bind_Ret _ _ _ _ _ (get_run _ _ _ _ E2)).
  destruct (get_prop h ph "moves") as [e|pmoves] eqn:E3; [discriminate|].
  rewrite (bind_Ret _ _ _ _ _ (get_run _ _ _ _ E3)).
  inversion Hb; subst b. by destruct (defined pmoves).
Qed.


End ResolutionFacts.

(** ** The code on concrete stores *)

Module Cases.
Import Js JsFacts GameJs MultiplayerJs Fixture.
Import DispatchFacts NormalizerFacts ConfigFacts ResolutionFacts MultiplayerFacts.

Example last_segment_phase_key : last_segment "B.play" = "play".
Proof. reflexivity. Qed.

Example last_segment_nested : last_segment "a.b.c" = "c".
Proof. reflexivity. Qed.

Example last_segment_trailing_dot : last_segment "a." = "".
Proof. reflexivity. Qed.

Example collect_names_once :
  collect_names ["pass"; "play"] ["A.play"; "B.play"; "B.take"]
  = ["pass"; "play"; "take"].
Proof. reflexivity. Qed.


(** [Game({})] returns a definition that a second call returns as it is. *)
Lemma Game_idempotent_witness :
  ∃ g h', Game flow_stub (VRef 1) empty_config_heap = Ret g h'
          ∧ Game flow_stub g h' = Ret g h'.
Proof.
  destruct (Game flow_stub (VRef 1) empty_config_heap) as [g h'|e h'] eqn:E.
  - exists g, h'. split; [reflexivity|].
    exact (proj2 (Game_idempotent flow_stub (VRef 1) empty_config_heap) g h' E).
  - vm_compute in E. discriminate E.
Defined.

(** C3.  With a phases table that has no entry for the current phase,
    [game.phases[ctx.phase].moves] reads a property of undefined: getMove
    throws a TypeError instead of returning null. *)
Theorem getMove_unknown_phase_throws :
  get_prop game_heap (VRef 20) "phase" = inr (VStr "A")
  ∧ get_prop game_heap (VRef 3) "A" = inr VUndefined
  ∧ getMove (VRef 1) (VRef 20) (VStr "pass") game_heap
    = Throw (TypeError "Cannot read property moves") game_heap.
Proof. repeat split; vm_compute; reflexivity. Qed.

(** So it does when the phases are given as a list of named phases, the
    form in which the tests of the flow engine write them: the list has no
    property 'A'. *)
Lemma getMove_list_phases_throws :
  getMove (VRef 61) (VRef 20) (VStr "pass") list_phases_heap
  = Throw (TypeError "Cannot read property moves") list_phases_heap.
Proof. vm_compute; reflexivity. Qed.

(** The exception reaches the caller of processMove. *)
Lemma processMove_unknown_phase_throws FnWrap call :
  processMove FnWrap call (VRef 1) (VRef 40) (VRef 30) (VRef 20) game_heap
  = Throw (TypeError "Cannot read property moves") game_heap.
Proof. vm_compute; reflexivity. Qed.



(** C5.  A long-form move [{ move: drop, undoable: false }] is not
    unwrapped: processMove looks for a field impl, finds none, and returns
    G without applying anything, whatever FnWrap and the application
    are. *)
Theorem processMove_long_form_ignored FnWrap call :
  get_prop game_heap (VRef 33) "type" = inr (VStr "discard")
  ∧ getMove (VRef 1) (VRef 22) (VStr "discard") game_heap
    = Ret (VRef 13) game_heap
  ∧ get_prop game_heap (VRef 13) "move" = inr (VRef 14)
  ∧ instanceof_Function game_heap (VRef 14) = true
  ∧ processMove FnWrap call (VRef 1) (VRef 40) (VRef 33) (VRef 22) game_heap
    = Ret (VRef 40) game_heap.
Proof. repeat split; vm_compute; reflexivity. Qed.

(** The same function under the field impl is unwrapped and applied: the
    application is recorded with the function and its arguments. *)
Lemma processMove_impl_applied :
  ∃ r h1,
    processMove wrap_none call_record (VRef 1) (VRef 40) (VRef 34) (VRef 22)
      game_heap = Ret (VRef r) h1
    ∧ h1 !! r = Some (Obj (KArray [VRef 14; VRef 40; VRef 41; VNum 7]) ∅).
Proof.
  destruct (processMove wrap_none call_record (VRef 1) (VRef 40) (VRef 34)
              (VRef 22) game_heap) as [r h1|e h1] eqn:E;
    vm_compute in E; inversion E; subst.
  exists 42%positive. eexists. split; [reflexivity|].
  vm_compute. reflexivity.
Qed.

(** The move "pass" in the default phase: the function at 10 is applied
    to G, to a new ctx object at 41 and to the argument 7. *)
Lemma processMove_invokes_witness :
  getMove (VRef 1) (VRef 22) (VStr "pass") game_heap = Ret (VRef 10) game_heap
  ∧ let h' := <[41%positive :=
                  Obj KObject (<["playerID" := VStr "1"]> (props ctx_default))]>
                 game_heap in
    processMove wrap_none call_record (VRef 1) (VRef 40) (VRef 30) (VRef 22)
      game_heap = call_record (VRef 10) [VRef 40; VRef 41; VNum 7] h'
    ∧ get_prop h' (VRef 41) "playerID" = inr (VStr "1")
    ∧ get_prop h' (VRef 41) "turn" = inr (VNum 3)
    ∧ game_heap !! 41%positive = None
    ∧ h' !! 22%positive = Some ctx_default.
Proof.
  assert (Hentry : getMove (VRef 1) (VRef 22) (VStr "pass") game_heap
                   = Ret (VRef 10) game_heap) by (vm_compute; reflexivity).
  split; [exact Hentry|].
  destruct (processMove_invokes wrap_none call_record 1%positive game_obj
              (VRef 40) 30%positive action_pass 22%positive ctx_default
              game_heap (VRef 10) 10%positive (CUser 0) ∅ 31%positive
              [VNum 7] ∅)
    as (E & _ & _ & Hnone & Hctx & _);
    try (vm_compute; reflexivity).
  intros h'. split; [rewrite E; vm_compute; reflexivity|].
  split; [vm_compute; reflexivity|]. split; [vm_compute; reflexivity|].
  split; [exact Hnone | exact Hctx].
Defined.


(** On that config the names are the three global moves and "play" of
    'B.play', each once (listed in the order of the map). *)
Example moveNames_of_game_heap :
  ∃ g h',
    Game flow_stub (VRef 1) game_heap = Ret g h'
    ∧ get_prop h' g "moveNames" = inr (VRef 44)
    ∧ h' !! 44%positive
      = Some (Obj (KArray (VStr <$> ["discard"; "draw"; "pass"; "play"])) ∅).
Proof.
  destruct (Game flow_stub (VRef 1) game_heap) as [g h'|e h'] eqn:E;
    vm_compute in E; inversion E; subst.
  eexists _, _. split; [reflexivity|]. split; vm_compute; reflexivity.
Qed.

(** The stand-in for FlowWithPhases only allocates. *)
Lemma flow_stub_keeps game (hb : heap) l o f ha :
  hb !! l = Some o → flow_stub game hb = Ret f ha → ha !! l = Some o.
Proof.
  intros Hl H. unfold flow_stub in H.
  rewrite (bind_Ret _ _ _ _ _ (new_run _ _)) in H.
  rewrite (bind_Ret _ _ _ _ _ (new_run _ _)) in H.
  rewrite new_run in H. inversion H; subst f ha.
  by do 3 apply alloc_frame.
Qed.

(** [Game({})]: the empty object passed in has a name, a setup, moves, a
    playerView, plugins and a flow afterwards. *)
Lemma Game_mutates_config_witness :
  ∃ g h' ps',
    Game flow_stub (VRef 1) empty_config_heap = Ret g h'
    ∧ h' !! 1%positive = Some (Obj KObject ps')
    ∧ g ≠ VRef 1
    ∧ ps' !! "name" = Some (VStr "default")
    ∧ (∀ k, k ∈ defaults → defined (field ps' k) = true)
    ∧ h' !! 1%positive ≠ empty_config_heap !! 1%positive.
Proof.
  destruct (Game flow_stub (VRef 1) empty_config_heap) as [g h'|e h'] eqn:E;
    [|vm_compute in E; discriminate E].
  destruct (Game_mutates_config flow_stub 1%positive ∅ empty_config_heap g h')
    as (ps' & Hl & Hg & Hdef & Hname & _ & _ & _ & Hchanged);
    [reflexivity | reflexivity
    | intros hb o f ha; apply flow_stub_keeps | exact E |].
  exists g, h', ps'. split; [reflexivity|]. split; [exact Hl|].
  split; [exact Hg|]. split; [apply Hname; reflexivity|].
  split; [exact Hdef|]. apply Hchanged. exists "name".
  split; [by left | reflexivity].
Defined.


(** A restore action goes to the reducer and nothing is emitted. *)
Example SocketUpdate_restore_silent :
  SocketUpdate getState_stub next_stub (VRef 50) (VRef 55) client_world
  = Ret (VRef 55) world_after.
Proof. vm_compute; reflexivity. Qed.

(** The message of that action carries the _id 4 of the state before the
    action, while the store holds the state with _id 5 afterwards. *)
Lemma SocketUpdate_id_witness :
  ∃ w2 fields,
    SocketUpdate getState_stub next_stub (VRef 50) (VRef 54) client_world
    = Ret (VRef 54) w2
    ∧ w_wire w2 = [Emit (VRef 51) "action" (VRef 54) fields]
    ∧ fields !! "_id" = Some (VNum 4)
    ∧ getState_stub w2 = Ret (VRef 53) w2
    ∧ get_prop (w_heap w2) (VRef 53) "_id" = inr (VNum 5).
Proof.
  assert (En : next_stub (VRef 54) client_world = Ret (VRef 54) world_after)
    by (vm_compute; reflexivity).
  destruct (SocketUpdate_id getState_stub next_stub 50%positive
              54%positive client_world (VRef 52) client_world (VRef 54)
              world_after move_fields instance_fields 51%positive)
    as (w2 & fields & _id & E & Hw & Hf & Hid & Hpre & Hframe);
    [vm_compute; reflexivity | exact En | vm_compute; reflexivity
    | vm_compute; reflexivity | vm_compute; reflexivity
    | discriminate | discriminate | left; reflexivity |].
  vm_compute in Hid. inversion Hid; subst _id.
  exists w2, fields. split; [exact E|]. split; [exact Hw|]. split; [exact Hf|].
  assert (H53 : w_heap w2 !! 53%positive
                = Some (Obj KObject {[ "_id" := VNum 5 ]})).
  { rewrite Hframe by discriminate. vm_compute. reflexivity. }
  assert (H60 : w_heap w2 !! 60%positive
                = Some (Obj KObject {[ "state" := VRef 53 ]})).
  { rewrite Hframe by discriminate. vm_compute. reflexivity. }
  split.
  - destruct w2 as [h2 wire2]. cbn [w_heap] in H60.
    unfold getState_stub, on_heap. cbn [w_heap w_wire].
    rewrite (get_run _ _ _ (VRef 53)); [reflexivity|].
    rewrite (get_prop_obj _ _ _ _ H60). vm_compute. reflexivity.
  - rewrite (get_prop_obj _ _ _ _ H53). vm_compute. reflexivity.
Defined.

End Cases.

(** * Further properties of the code *)

(** ** The dispatcher *)

Module DispatchExtras.
Import Js JsFacts GameJs DispatchFacts ResolutionFacts.

(** The two lookups on a table that is a reference. *)
Lemma global_move_ref game name h l :
  get_prop h game "moves" = inr (VRef l) →
  global_move game name h
  = Ret (default VNull (own_props (obj_at h l) !! to_string name)) h.
Proof.
  intros Hm. unfold global_move.
  rewrite (bind_Ret _ _ _ _ _ (get_run _ _ _ _ Hm)).
  unfold has, reads at 1. cbn [has_prop lift_sum]. rewrite bind_run.
  unfold mret at 1, M_ret.
  destruct (own_props (obj_at h l) !! to_string name) as [x|] eqn:E.
  - rewrite bool_decide_true by eauto.
    rewrite (bind_Ret _ _ _ _ _ (get_run _ _ _ _ Hm)).
    apply get_run. unfold get_prop, field. cbn [boxed]. by rewrite E.
  - rewrite bool_decide_false by (by intros [? ?]). reflexivity.
Qed.

Lemma phase_move_ref game phase name h flow l :
  get_prop h game "flow" = inr flow →
  get_prop h flow "moveMap" = inr (VRef l) →
  phase_move game phase name h
  = Ret (default VNull
           (own_props (obj_at h l)
              !! (to_string phase ++ "." ++ to_string name))) h.
Proof.
  intros Hf Hm. unfold phase_move.
  rewrite (bind_Ret _ _ _ _ _ (get_run _ _ _ _ Hf)).
  rewrite (bind_Ret _ _ _ _ _ (get_run _ _ _ _ Hm)).
  unfold has, reads at 1. cbn [has_prop lift_sum]. rewrite bind_run.
  unfold mret at 1, M_ret.
  destruct (own_props (obj_at h l) !! _) as [x|] eqn:E.
  - rewrite bool_decide_true by eauto.
    rewrite (bind_Ret _ _ _ _ _ (get_run _ _ _ _ Hf)).
    rewrite (bind_Ret _ _ _ _ _ (get_run _ _ _ _ Hm)).
    apply get_run. unfold get_prop, field. cbn [boxed]. by rewrite E.
  - rewrite bool_decide_false by (by intros [? ?]). reflexivity.
Qed.

(** X1.  [getMove] only reads: whether it returns an entry, returns null
    or throws, the heap it leaves is the heap it was given. *)
Theorem getMove_never_writes game ctx name h :
  final (getMove game ctx name h) = h.
Proof. apply getMove_read_only. Qed.

(** X2.  [getMove] returns (an entry or null) and does not throw when ctx
    is not undefined or null, the moves of the game and the moveMap of its
    flow are objects, and, unless the phase is "default" or the game has
    no phases table, the table has an entry for the phase. *)
Theorem getMove_returns game ctx name h phase phases lm flow lmm :
  get_prop h ctx "phase" = inr phase →
  get_prop h game "phases" = inr phases →
  get_prop h game "moves" = inr (VRef lm) →
  get_prop h game "flow" = inr flow →
  get_prop h flow "moveMap" = inr (VRef lmm) →
  (phase ≠ VStr "default" → phases ≠ VUndefined →
   ∃ ph, get_prop h phases (to_string phase) = inr ph
         ∧ ph ≠ VUndefined ∧ ph ≠ VNull) →
  ∃ v, getMove game ctx name h = Ret v h.
Proof.
  intros Hp Hps Hm Hf Hmm Hentry.
  assert (∃ b, declares_moves h game phase = inr b) as [b Hb].
  { unfold declares_moves. case_bool_decide as Hd; [|eauto].
    rewrite Hps. destruct (defined phases) eqn:D; [|eauto].
    destruct (Hentry Hd) as (ph & Eph & H1 & H2).
    { intros ->. discriminate. }
    rewrite Eph. unfold get_prop. destruct ph; try done; cbn [boxed]; eauto. }
  rewrite (getMove_cases _ _ _ _ _ _ Hp Hb). destruct b.
  - rewrite (phase_move_ref _ _ _ _ _ _ Hf Hmm). eauto.
  - rewrite (global_move_ref _ _ _ _ Hm). eauto.
Qed.

Section dispatch.
Variable FnWrap : value → value → M heap value.
Variable call : value → list value → M heap value.

(** The run of processMove once the type has resolved to the function at
    [lf]. *)
Lemma processMove_run game og G la oa ctx octx h entry lf cf pf :
  h !! game = Some og →
  h !! la = Some oa →
  boxed h ctx = Some octx →
  getMove (VRef game) ctx (field (own_props oa) "type") h = Ret entry h →
  unwrap entry h = Ret (VRef lf) h →
  h !! lf = Some (Obj (KFunction cf) pf) →
  let l' := fresh_loc h in
  let h' := <[l' := Obj KObject
                      (<["playerID" := field (own_props oa) "playerID"]>
                         (enum_props octx))]> h in
  processMove FnWrap call (VRef game) G (VRef la) ctx h
  = (fn ← FnWrap (VRef lf) (field (own_props og) "plugins");
     call fn (concat h' [G; VRef l'] (field (own_props oa) "args"))) h'.
Proof.
  intros Hg Ha Hctx Hentry Hunwrap Hf l' h'. unfold processMove.
  rewrite (bind_Ret _ _ _ _ _ (get_run _ _ _ _ (get_prop_obj _ _ _ _ Ha))).
  rewrite (bind_Ret _ _ _ _ _ Hentry).
  rewrite (bind_Ret _ _ _ _ _ Hunwrap).
  rewrite (bind_Ret _ _ _ _ _ (gets_run _ _)).
  unfold instanceof_Function at 1. rewrite (obj_at_Some _ _ _ Hf). cbn [kind].
  assert (Hw : withPlayerID ctx (VRef la) h = Ret (VRef l') h').
  { unfold withPlayerID.
    rewrite (bind_Ret _ _ _ _ _ (gets_run _ _)).
    rewrite (bind_Ret _ _ _ _ _ (get_run _ _ _ _ (get_prop_obj _ _ _ _ Ha))).
    unfold spread_props. rewrite Hctx. apply new_run. }
  rewrite (bind_Ret _ _ _ _ _ Hw).
  assert (Ha' : h' !! la = Some oa) by (apply alloc_frame; exact Ha).
  assert (Hg' : h' !! game = Some og) by (apply alloc_frame; exact Hg).
  rewrite (bind_Ret _ _ _ _ _ (get_run _ _ _ _ (get_prop_obj _ _ _ _ Ha'))).
  rewrite (bind_Ret _ _ _ _ _ (gets_run _ _)).
  by rewrite (bind_Ret _ _ _ _ _ (get_run _ _ _ _ (get_prop_obj _ _ _ _ Hg'))).
Qed.

(** X3.  When [getMove] throws, processMove throws the same exception
    and nothing has been allocated or written: the heap is the one it was
    given. *)
Theorem processMove_rethrows game G action ctx h type e h1 :
  get_prop h action "type" = inr type →
  getMove game ctx type h = Throw e h1 →
  processMove FnWrap call game G action ctx h = Throw e h ∧ h1 = h.
Proof.
  intros Htype Hthrow.
  assert (h1 = h) as ->
    by (eapply read_only_Throw, Hthrow; apply getMove_read_only).
  split; [|reflexivity]. unfold processMove.
  rewrite (bind_Ret _ _ _ _ _ (get_run _ _ _ _ Htype)).
  by rewrite (bind_Throw _ _ _ _ _ Hthrow).
Qed.

(** X4.  When action.args is not an array (undefined, null, a number, a
    string, an object that is not an array), the resolved function is
    applied to exactly three arguments: G, the new ctx object and
    action.args itself. *)
Theorem processMove_args_not_array game og G la oa ctx octx h
    entry lf cf pf :
  h !! game = Some og →
  h !! la = Some oa →
  boxed h ctx = Some octx →
  getMove (VRef game) ctx (field (own_props oa) "type") h = Ret entry h →
  unwrap entry h = Ret (VRef lf) h →
  h !! lf = Some (Obj (KFunction cf) pf) →
  (∀ l es, field (own_props oa) "args" = VRef l →
           kind (obj_at h l) ≠ KArray es) →
  let l' := fresh_loc h in
  let h' := <[l' := Obj KObject
                      (<["playerID" := field (own_props oa) "playerID"]>
                         (enum_props octx))]> h in
  processMove FnWrap call (VRef game) G (VRef la) ctx h
  = (fn ← FnWrap (VRef lf) (field (own_props og) "plugins");
     call fn [G; VRef l'; field (own_props oa) "args"]) h'.
Proof.
  intros Hg Ha Hctx Hentry Hunwrap Hf Hargs l' h'.
  rewrite (processMove_run _ _ _ _ _ _ _ _ _ _ _ _ Hg Ha Hctx Hentry Hunwrap Hf).
  fold l' h'. f_equal.
  unfold concat. destruct (field (own_props oa) "args") as [| |b|n|s|l] eqn:E;
    try reflexivity.
  destruct (decide (l = l')) as [->|Hne].
  - unfold obj_at, h'. rewrite lookup_insert_eq. reflexivity.
  - specialize (Hargs l). unfold obj_at in *. unfold h'.
    rewrite lookup_insert_ne by congruence.
    destruct (kind (default (Obj KObject ∅) (h !! l))) as [|es|c] eqn:K;
      try reflexivity.
    by destruct (Hargs es eq_refl).
Qed.

(** X5.  A record whose impl field is a function is unwrapped: the
    function under impl is the one that is wrapped and applied, to G, the
    new ctx object and the arguments of the action. *)
Theorem processMove_impl_record game og G la oa ctx octx h
    lrec orec lf cf pf :
  h !! game = Some og →
  h !! la = Some oa →
  boxed h ctx = Some octx →
  getMove (VRef game) ctx (field (own_props oa) "type") h
    = Ret (VRef lrec) h →
  h !! lrec = Some orec →
  field (own_props orec) "impl" = VRef lf →
  h !! lf = Some (Obj (KFunction cf) pf) →
  let l' := fresh_loc h in
  let h' := <[l' := Obj KObject
                      (<["playerID" := field (own_props oa) "playerID"]>
                         (enum_props octx))]> h in
  processMove FnWrap call (VRef game) G (VRef la) ctx h
  = (fn ← FnWrap (VRef lf) (field (own_props og) "plugins");
     call fn (concat h' [G; VRef l'] (field (own_props oa) "args"))) h'.
Proof.
  intros Hg Ha Hctx Hentry Hrec Himpl Hf.
  apply (processMove_run _ _ _ _ _ _ _ _ _ _ cf pf Hg Ha Hctx Hentry); [|exact Hf].
  unfold unwrap. cbn [instanceof_Object].
  rewrite (bind_Ret _ _ _ _ _ (get_run _ _ _ _ (get_prop_obj _ _ _ _ Hrec))).
  rewrite Himpl. cbn [truthy]. apply get_run.
  rewrite (get_prop_obj _ _ _ _ Hrec). by rewrite Himpl.
Qed.

End dispatch.
End DispatchExtras.

(** ** The normalizer *)

Module NormalizerExtras.
Import Js JsFacts GameJs NormalizerFacts ConfigFacts.

Lemma not_default k :
  k = "flow" ∨ k = "processMove" ∨ k = "getMove" ∨ k = "moveNames" →
  k ∉ defaults.
Proof.
  unfold defaults. intros Hk Hin.
  repeat (apply elem_of_cons in Hin as [-> | Hin];
          [by repeat destruct Hk as [Hk|Hk]|]).
  inversion Hin.
Qed.

Lemma filled_flow ps l2 l3 l4 l5 :
  field (filled ps l2 l3 l4 l5) "flow" = field ps "flow".
Proof. unfold field. rewrite filled_other; [reflexivity|]. apply not_default. auto. Qed.

Section normalizer.
Variable FlowWithPhases : value → M heap value.
Abbreviation Game := (GameJs.Game FlowWithPhases).

(** A flow that has a processGameEvent is left in place, and
    [FlowWithPhases] is not applied. *)
Lemma ensure_flow_supplied l ps h lf engine :
  h !! l = Some (Obj KObject ps) →
  field ps "flow" = VRef lf →
  h !! lf = Some engine →
  defined (field (own_props engine) "processGameEvent") = true →
  ensure_flow FlowWithPhases (VRef l) h = Ret tt h.
Proof.
  intros Hl Hflow Hlf Hpge. unfold ensure_flow.
  rewrite (bind_Ret _ _ _ _ _ (get_run _ _ _ _ (get_prop_obj _ _ _ _ Hl))).
  unfold own_props at 1. cbn [kind props].
  rewrite (bind_Ret _ _ _ _ _ (flow_check_run _ _)).
  unfold flow_missing. rewrite Hflow, (get_prop_obj _ _ _ _ Hlf), Hpge.
  reflexivity.
Qed.

(** The run of [Game] on a raw config that brings its flow engine. *)
Lemma Game_supplied_run l ps h lf engine h1 :
  h !! l = Some (Obj KObject ps) →
  field ps "processMove" = VUndefined →
  field ps "flow" = VRef lf → lf ≠ l →
  h !! lf = Some engine →
  defined (field (own_props engine) "processGameEvent") = true →
  fill_defaults (VRef l) h = Ret tt h1 →
  let h2 := <[fresh_loc h1 := Obj (KFunction (CGetMove (VRef l))) ∅]> h1 in
  (∃ l2 l3 l4 l5, h2 !! l = Some (Obj KObject (filled ps l2 l3 l4 l5)))
  ∧ h2 !! lf = Some engine
  ∧ Game (VRef l) h
    = match moveNameSet (VRef l) h2 with
      | Ret names _ =>
          Ret (processed (VRef l) h1 h2 names).1
              (processed (VRef l) h1 h2 names).2
      | Throw e hx => Throw e hx
      end.
Proof.
  intros Hl Hraw Hflow Hne Hlf Hpge Hfd h2.
  destruct (fill_defaults_spec _ _ _ Hl)
    as (h1' & l2 & l3 & l4 & l5 & Hfd' & Hl1 & Hkeep).
  rewrite Hfd in Hfd'. inversion Hfd'; subst h1'; clear Hfd'.
  fold (filled ps l2 l3 l4 l5) in Hl1.
  assert (Hl2 : h2 !! l = Some (Obj KObject (filled ps l2 l3 l4 l5)))
    by (by apply alloc_frame).
  assert (Hlf2 : h2 !! lf = Some engine) by (apply alloc_frame; eauto).
  split; [eauto|]. split; [exact Hlf2|].
  unfold GameJs.Game.
  rewrite (bind_Ret _ _ _ _ _ (get_run _ _ _ _ (get_prop_obj _ _ _ _ Hl))).
  unfold own_props at 1. cbn [kind props]. rewrite Hraw. cbn [defined].
  rewrite (bind_Ret _ _ _ _ _ Hfd), (bind_Ret _ _ _ _ _ (new_run _ _)).
  fold h2.
  rewrite (bind_Ret _ _ _ _ _
             (ensure_flow_supplied _ _ _ _ _ Hl2
                (eq_trans (filled_flow _ _ _ _ _) Hflow) Hlf2 Hpge)).
  rewrite bind_run.
  destruct (moveNameSet (VRef l) h2) as [names hx|e hx] eqn:En; [|reflexivity].
  pose proof (read_only_Ret _ _ _ _ (moveNameSet_read_only _) En); subst hx.
  reflexivity.
Qed.

End normalizer.

(** X6.  A config that brings a flow engine (a flow object with a
    processGameEvent) keeps it: [Game] does not apply [FlowWithPhases], so
    its outcome is the same for every [FlowWithPhases], and the flow of
    the returned definition is the engine that was supplied, untouched. *)
Theorem Game_keeps_supplied_flow (F F' : value → M heap value)
    l ps h lf engine :
  h !! l = Some (Obj KObject ps) →
  field ps "processMove" = VUndefined →
  field ps "flow" = VRef lf → lf ≠ l →
  h !! lf = Some engine →
  defined (field (own_props engine) "processGameEvent") = true →
  Game F (VRef l) h = Game F' (VRef l) h
  ∧ ∀ g h', Game F (VRef l) h = Ret g h' →
            get_prop h' g "flow" = inr (VRef lf) ∧ h' !! lf = Some engine.
Proof.
  intros Hl Hraw Hflow Hne Hlf Hpge.
  destruct (fill_defaults_spec _ _ _ Hl) as (h1 & ? & ? & ? & ? & Hfd & _ & _).
  destruct (Game_supplied_run F l ps h lf engine h1 Hl Hraw Hflow Hne Hlf Hpge
              Hfd) as ((l2 & l3 & l4 & l5 & Hl2) & Hlf2 & Hrun).
  destruct (Game_supplied_run F' l ps h lf engine h1 Hl Hraw Hflow Hne Hlf
              Hpge Hfd) as (_ & _ & Hrun').
  split; [by rewrite Hrun, Hrun'|].
  intros g h' H. rewrite Hrun in H.
  destruct (moveNameSet (VRef l) _) as [names hx|e hx]; [|discriminate].
  inversion H; subst g h'; clear H. unfold processed. cbn [fst snd]. split.
  - erewrite get_prop_obj; [|apply lookup_insert_eq].
    unfold field, own_props at 1. cbn [kind props].
    rewrite !lookup_insert_ne by discriminate.
    unfold spread_props. cbn [boxed]. rewrite (obj_at_Some _ _ _ Hl2).
    cbn [enum_props kind props].
    fold (field (filled ps l2 l3 l4 l5) "flow").
    by rewrite filled_flow, Hflow.
  - by do 3 apply alloc_frame.
Qed.

Section shape.
Variable FlowWithPhases : value → M heap value.
Abbreviation Game := (GameJs.Game FlowWithPhases).

Lemma ensure_flow_keeps l ps h h3 :
  keeps_objects FlowWithPhases (VRef l) →
  h !! l = Some (Obj KObject ps) →
  ensure_flow FlowWithPhases (VRef l) h = Ret tt h3 →
  ∀ l' o, l' ≠ l → h !! l' = Some o → h3 !! l' = Some o.
Proof.
  intros HF Hl H l' o Hne Hl'. unfold ensure_flow in H.
  rewrite (bind_Ret _ _ _ _ _ (get_run _ _ _ _ (get_prop_obj _ _ _ _ Hl))) in H.
  unfold own_props in H. cbn [kind props] in H.
  rewrite (bind_Ret _ _ _ _ _ (flow_check_run _ _)) in H.
  destruct (flow_missing h (field ps "flow")).
  - apply bind_Ret_inv in H as (f & ha & Ef & H).
    rewrite (set_run _ _ _ _ _ (HF _ _ _ _ _ Hl Ef)) in H.
    inversion H; subst h3. rewrite lookup_insert_ne by congruence. eauto.
  - inversion H; by subst h3.
Qed.

(** The shape of the heap after [Game] on a raw config that is a plain
    object, for a [FlowWithPhases] that keeps the objects of the heap. *)
Lemma Game_raw_shape l ps h g h' :
  h !! l = Some (Obj KObject ps) →
  field ps "processMove" = VUndefined →
  keeps_objects FlowWithPhases (VRef l) →
  Game (VRef l) h = Ret g h' →
  ∃ lr ps' lg la lp names,
    g = VRef lr ∧ lr ≠ l ∧ h !! lr = None
    ∧ h' !! l = Some (Obj KObject ps')
    ∧ field ps' "processMove" = VUndefined
    ∧ h' !! lr
      = Some (Obj KObject
                (<["processMove" := VRef lp]>
                   (<["moveNames" := VRef la]>
                      (<["getMove" := VRef lg]> ps'))))
    ∧ h' !! lg = Some (Obj (KFunction (CGetMove (VRef l))) ∅)
    ∧ h' !! lp = Some (Obj (KFunction (CProcessMove (VRef l))) ∅)
    ∧ h' !! la = Some (Obj (KArray (VStr <$> names)) ∅)
    ∧ (∀ l' o, l' ≠ l → h !! l' = Some o → h' !! l' = Some o).
Proof.
  intros Hl Hraw HF H.
  assert (E : get_prop h (VRef l) "processMove" = inr VUndefined)
    by (by rewrite (get_prop_obj _ _ _ _ Hl); unfold own_props; cbn; rewrite Hraw).
  destruct (Game_raw_inv _ _ _ _ _ E H) as (h1 & h3 & names & Hfd & Hef & _ & Hp).
  destruct (fill_defaults_spec _ _ _ Hl)
    as (h1' & l2 & l3 & l4 & l5 & Hfd' & Hl1 & Hkeep1).
  rewrite Hfd in Hfd'. inversion Hfd'; subst h1'; clear Hfd'.
  fold (filled ps l2 l3 l4 l5) in Hl1.
  set (lg := fresh_loc h1) in *.
  set (h2 := <[lg := Obj (KFunction (CGetMove (VRef l))) ∅]> h1) in *.
  assert (Hl2 : h2 !! l = Some (Obj KObject (filled ps l2 l3 l4 l5)))
    by (by apply alloc_frame).
  assert (Hframe : ∀ hb o f ha, hb !! l = Some o →
            FlowWithPhases (VRef l) hb = Ret f ha → ha !! l = Some o)
    by (intros; eapply HF; eauto).
  destruct (ensure_flow_spec _ _ _ _ _ Hl2 Hframe Hef)
    as (ps' & Hl3 & Hother & _).
  pose proof (ensure_flow_keeps _ _ _ _ HF Hl2 Hef) as Hkeep3.
  assert (Hlg : lg ≠ l).
  { intros E'. pose proof (fresh_loc_None h1) as Hn. fold lg in Hn.
    rewrite E', Hl1 in Hn. discriminate. }
  assert (Hlg3 : h3 !! lg = Some (Obj (KFunction (CGetMove (VRef l))) ∅))
    by (apply Hkeep3; [exact Hlg | apply lookup_insert_eq]).
  assert (Hkeep : ∀ l' o, l' ≠ l → h !! l' = Some o → h3 !! l' = Some o).
  { intros l' o Hne Hl'. apply Hkeep3; [exact Hne|].
    apply alloc_frame. eauto. }
  unfold processed in Hp. unfold spread_props in Hp. cbn [boxed] in Hp.
  rewrite (obj_at_Some _ _ _ Hl3) in Hp. cbn [enum_props kind props] in Hp.
  fold lg in Hp.
  set (la := fresh_loc h3) in *.
  set (h4 := <[la := Obj (KArray (VStr <$> names)) ∅]> h3) in *.
  set (lp := fresh_loc h4) in *.
  set (h5 := <[lp := Obj (KFunction (CProcessMove (VRef l))) ∅]> h4) in *.
  set (lr := fresh_loc h5) in *.
  inversion Hp; subst g h'; clear Hp.
  assert (K5 : ∀ l' o, h3 !! l' = Some o → h5 !! l' = Some o)
    by (intros; by do 2 apply alloc_frame).
  assert (Hlr : ∀ l' o, h5 !! l' = Some o → lr ≠ l').
  { intros l' o Ho E'. pose proof (fresh_loc_None h5) as Hn. fold lr in Hn.
    rewrite E', Ho in Hn. discriminate. }
  exists lr, ps', lg, la, lp, names.
  split; [reflexivity|]. split; [eapply Hlr; eauto|]. split.
  { destruct (h !! lr) as [o|] eqn:Ho; [|reflexivity].
    destruct (decide (lr = l)) as [E'|Hne]; [by destruct (Hlr _ _ (K5 _ _ Hl3))|].
    by destruct (Hlr _ _ (K5 _ _ (Hkeep _ _ Hne Ho))). }
  split; [by do 3 apply alloc_frame|]. split.
  { unfold field. rewrite Hother by discriminate.
    rewrite filled_other by (apply not_default; auto). exact Hraw. }
  split; [apply lookup_insert_eq|].
  split; [by do 3 apply alloc_frame|].
  split; [apply alloc_frame, lookup_insert_eq|].
  split; [do 2 apply alloc_frame; apply lookup_insert_eq|].
  intros l' o Hne Ho. do 3 apply alloc_frame. eauto.
Qed.

(** X7.  The definition returned for a raw config is a new object: it
    holds the fields of the config object as [Game] left them, with the
    same values (so the moves table, the plugins and the flow engine are
    shared with the config, not copied), and on top of them getMove,
    moveNames and processMove.  Its getMove and processMove are functions
    that close over the config object itself, not over the definition. *)
Theorem Game_definition_object l ps h g h' :
  h !! l = Some (Obj KObject ps) →
  field ps "processMove" = VUndefined →
  keeps_objects FlowWithPhases (VRef l) →
  Game (VRef l) h = Ret g h' →
  ∃ lr ps' lg lp,
    g = VRef lr ∧ h !! lr = None
    ∧ h' !! l = Some (Obj KObject ps')
    ∧ (∀ k, k ∉ ["getMove"; "moveNames"; "processMove"] →
            get_prop h' g k = inr (field ps' k))
    ∧ get_prop h' g "getMove" = inr (VRef lg)
    ∧ h' !! lg = Some (Obj (KFunction (CGetMove (VRef l))) ∅)
    ∧ get_prop h' g "processMove" = inr (VRef lp)
    ∧ h' !! lp = Some (Obj (KFunction (CProcessMove (VRef l))) ∅).
Proof.
  intros Hl Hraw HF H.
  destruct (Game_raw_shape _ _ _ _ _ Hl Hraw HF H)
    as (lr & ps' & lg & la & lp & names & -> & Hne & Hnew & Hl' & _ & Hg
          & Hlg & Hlp & _ & _).
  exists lr, ps', lg, lp. split; [reflexivity|].
  split; [exact Hnew|]. split; [exact Hl'|].
  split; [|split; [|split; [exact Hlg|split; [|exact Hlp]]]].
  - intros k Hk. rewrite (get_prop_obj _ _ _ _ Hg). f_equal.
    unfold field, own_props. cbn [kind props].
    rewrite !lookup_insert_ne; [reflexivity|..]; intros <-; apply Hk;
      repeat first [ by left | right ].
  - rewrite (get_prop_obj _ _ _ _ Hg). unfold field, own_props.
    cbn [kind props]. rewrite !lookup_insert_ne by discriminate.
    by rewrite lookup_insert_eq.
  - rewrite (get_prop_obj _ _ _ _ Hg). unfold field, own_props.
    cbn [kind props]. by rewrite lookup_insert_eq.
Qed.

(** X8.  Apart from the config object, [Game] overwrites nothing: every
    other object of the heap is the same after the call. *)
Theorem Game_writes_config_only l ps h g h' :
  h !! l = Some (Obj KObject ps) →
  field ps "processMove" = VUndefined →
  keeps_objects FlowWithPhases (VRef l) →
  Game (VRef l) h = Ret g h' →
  ∀ l' o, l' ≠ l → h !! l' = Some o → h' !! l' = Some o.
Proof.
  intros Hl Hraw HF H.
  destruct (Game_raw_shape _ _ _ _ _ Hl Hraw HF H)
    as (? & ? & ? & ? & ? & ? & _ & _ & _ & _ & _ & _ & _ & _ & _ & Hkeep).
  exact Hkeep.
Qed.

(** X9.  [Game] does not mark the config it was given: the config object
    never gets a processMove, so a second call on the same config does the
    work again and returns a second definition, another object than the
    first, which is left as it was. *)
Theorem Game_twice_on_config l ps h g1 h1 g2 h2 :
  h !! l = Some (Obj KObject ps) →
  field ps "processMove" = VUndefined →
  keeps_objects FlowWithPhases (VRef l) →
  Game (VRef l) h = Ret g1 h1 →
  Game (VRef l) h1 = Ret g2 h2 →
  g2 ≠ g1 ∧ g1 ≠ VRef l ∧ g2 ≠ VRef l
  ∧ ∃ l1 o1, g1 = VRef l1 ∧ h1 !! l1 = Some o1 ∧ h2 !! l1 = Some o1.
Proof.
  intros Hl Hraw HF H1 H2.
  destruct (Game_raw_shape _ _ _ _ _ Hl Hraw HF H1)
    as (lr1 & ps1 & ? & ? & ? & ? & -> & Hne1 & _ & Hl1 & Hraw1 & Hg1
          & _ & _ & _ & _).
  destruct (Game_raw_shape _ _ _ _ _ Hl1 Hraw1 HF H2)
    as (lr2 & ps2 & ? & ? & ? & ? & -> & Hne2 & Hnew2 & _ & _ & _
          & _ & _ & _ & Hkeep2).
  split; [|split; [congruence|split; [congruence|]]].
  - intros [= ->]. rewrite Hg1 in Hnew2. discriminate.
  - eexists _, _. split; [reflexivity|]. split; [exact Hg1|].
    by apply Hkeep2.
Qed.

(** X10.  A config whose moves is null (not undefined) gets no default
    moves table, and [Game] does not return on it. *)
Theorem Game_null_moves l ps h :
  h !! l = Some (Obj KObject ps) →
  field ps "processMove" = VUndefined →
  field ps "moves" = VNull →
  (∀ hb o f ha, hb !! l = Some o →
                FlowWithPhases (VRef l) hb = Ret f ha → ha !! l = Some o) →
  ∀ g h', Game (VRef l) h ≠ Ret g h'.
Proof.
  intros Hl Hraw Hnull Hframe g h' H.
  assert (E : get_prop h (VRef l) "processMove" = inr VUndefined)
    by (by rewrite (get_prop_obj _ _ _ _ Hl); unfold own_props; cbn; rewrite Hraw).
  destruct (Game_raw_inv _ _ _ _ _ E H) as (h1 & h3 & names & Hfd & Hef & Hn & _).
  destruct (fill_defaults_spec _ _ _ Hl)
    as (h1' & l2 & l3 & l4 & l5 & Hfd' & Hl1 & _).
  rewrite Hfd in Hfd'. inversion Hfd'; subst h1'; clear Hfd'.
  fold (filled ps l2 l3 l4 l5) in Hl1.
  pose proof (alloc_frame _ (Obj (KFunction (CGetMove (VRef l))) ∅) _ _ Hl1)
    as Hl2.
  destruct (ensure_flow_spec _ _ _ _ _ Hl2 Hframe Hef) as (ps' & Hl3 & Hother & _).
  apply moveNameSet_inv in Hn
    as (_ & moves & moveKeys & _ & _ & _ & Hm & Hmk & _).
  rewrite (get_prop_obj _ _ _ _ Hl3) in Hm. inversion Hm as [Hm']; clear Hm.
  unfold field, own_props in Hm'. cbn [kind props] in Hm'.
  rewrite Hother in Hm' by discriminate.
  rewrite filled_kept in Hm'.
  - fold (field ps "moves") in Hm'. rewrite Hnull in Hm'. subst moves.
    discriminate.
  - intros _. by rewrite Hnull.
Qed.

End shape.

(** X11.  A config that supplies a flow with a processGameEvent but with
    no moveMap (undefined or null) makes [Game] throw: the engine is kept
    as it is and its moveMap is enumerated without a check. *)
Theorem Game_flow_without_moveMap (F : value → M heap value)
    l ps h lf engine :
  h !! l = Some (Obj KObject ps) →
  field ps "processMove" = VUndefined →
  field ps "flow" = VRef lf → lf ≠ l →
  h !! lf = Some engine →
  defined (field (own_props engine) "processGameEvent") = true →
  field (own_props engine) "moveMap" = VUndefined
  ∨ field (own_props engine) "moveMap" = VNull →
  ∃ e hx, Game F (VRef l) h = Throw e hx.
Proof.
  intros Hl Hraw Hflow Hne Hlf Hpge Hmm.
  destruct (fill_defaults_spec _ _ _ Hl) as (h1 & ? & ? & ? & ? & Hfd & _ & _).
  destruct (Game_supplied_run F l ps h lf engine h1 Hl Hraw Hflow Hne Hlf Hpge
              Hfd) as ((l2 & l3 & l4 & l5 & Hl2) & Hlf2 & Hrun).
  rewrite Hrun. clear Hrun.
  set (h2 := <[fresh_loc h1 := Obj (KFunction (CGetMove (VRef l))) ∅]> h1) in *.
  assert (∃ e, moveNameSet (VRef l) h2 = Throw e h2) as [e ->]; [|eauto].
  unfold moveNameSet.
  rewrite (bind_Ret _ _ _ _ _ (get_run _ _ _ _ (get_prop_obj _ _ _ _ Hl2))).
  rewrite bind_run. unfold reads at 1.
  destruct (getOwnPropertyNames h2 _) as [e|moveKeys]; [cbn; eauto|].
  cbn [lift_sum]. unfold mret at 1, M_ret.
  rewrite (bind_Ret _ _ _ _ _ (get_run _ _ _ _ (get_prop_obj _ _ _ _ Hl2))).
  unfold own_props at 1. cbn [kind props]. rewrite filled_flow, Hflow.
  rewrite (bind_Ret _ _ _ _ _ (get_run _ _ _ _ (get_prop_obj _ _ _ _ Hlf2))).
  rewrite bind_run. unfold reads, keys, names_of.
  destruct Hmm as [-> | ->]; cbn; eauto.
Qed.

(** X12.  The names are collected in order: the names of the global moves
    come first, as they are enumerated, and the names that only phases
    bring follow; each of those is the last segment of a key of the move
    map and is not a global name. *)
Theorem collect_names_order moveKeys mapKeys :
  NoDup moveKeys →
  ∃ rest,
    collect_names moveKeys mapKeys = (moveKeys ++ rest)%list
    ∧ ∀ x, x ∈ rest →
           (x ∉ moveKeys) ∧ ∃ k, k ∈ mapKeys ∧ x = last_segment k.
Proof.
  intros Hnd. unfold collect_names.
  assert (Hfirst : ∀ l acc, NoDup (acc ++ l) →
            foldl set_add acc l = (acc ++ l)%list).
  { induction l as [|a l IH]; intros acc H; simpl; [by rewrite app_nil_r|].
    apply NoDup_app in H as H'. destruct H' as (_ & Hdis & _).
    unfold set_add at 2. rewrite decide_False by (intros Ha; eapply Hdis; [exact Ha | by left]).
    rewrite IH; rewrite <- app_assoc; [reflexivity | exact H]. }
  rewrite (Hfirst moveKeys []) by exact Hnd. cbn [app].
  assert (Hgen : ∀ l acc,
            ∃ rest, foldl (fun s name => set_add s (last_segment name)) acc l
                    = (acc ++ rest)%list
                    ∧ ∀ x, x ∈ rest →
                           (x ∉ acc) ∧ ∃ k, k ∈ l ∧ x = last_segment k).
  { induction l as [|a l IH]; intros acc; simpl.
    - exists []. split; [by rewrite app_nil_r | intros x Hx; inversion Hx].
    - destruct (IH (set_add acc (last_segment a))) as (rest & E & Hrest).
      unfold set_add in E, Hrest. destruct (decide (last_segment a ∈ acc)).
      + exists rest. unfold set_add. rewrite decide_True by done.
        split; [exact E|]. intros x Hx. destruct (Hrest x Hx) as (? & k & ? & ?).
        split; [done|]. exists k. split; [by right | done].
      + exists (last_segment a :: rest). unfold set_add.
        rewrite decide_False by done. rewrite E, <- app_assoc.
        split; [reflexivity|]. intros x Hx.
        apply elem_of_cons in Hx as [-> | Hx].
        * split; [done|]. exists a. split; [by left | done].
        * destruct (Hrest x Hx) as (Hnot & k & ? & ?). split.
          -- intros Hin. apply Hnot. apply elem_of_app. by left.
          -- exists k. split; [by right | done]. }
  apply Hgen.
Qed.

(** X13.  The key "<phase>.<name>" of a phase move gives back the name of
    the move when the name has no dot, whatever the name of the phase. *)
Theorem phase_key_name phase name :
  "."%char ∉ String.list_ascii_of_string name →
  last_segment (phase +:+ ("." +:+ name)) = name.
Proof.
  intros H. change ("." +:+ name) with (String "." name).
  rewrite last_segment_dot. by apply last_segment_plain.
Qed.

End NormalizerExtras.

(** ** The Multiplayer class *)

Module MultiplayerExtras.
Import Js JsFacts MultiplayerJs MultiplayerFacts.

Section middleware.
Variable getState : M world value.
Variable next : value → M world value.
Abbreviation SocketUpdate := (MultiplayerJs.SocketUpdate getState next).

(** The middleware up to the emission, for an action of the white list. *)
Lemma SocketUpdate_tagging lt la w st w0 result w1 pa pt _id :
  getState w = Ret st w0 →
  next (VRef la) w0 = Ret result w1 →
  w_heap w1 !! la = Some (Obj KObject pa) →
  w_heap w1 !! lt = Some (Obj KObject pt) →
  get_prop (w_heap w1) st "_id" = inr _id →
  whiteListed (field pa "type") = true →
  let fields := tagged _id (field pt "gameid") (field pt "player") pa in
  SocketUpdate (VRef lt) (VRef la) w
  = (emit (field pt "socket") "action" (VRef la) ≫= λ _, mret result)
      (World (<[la := Obj KObject fields]> (w_heap w1)) (w_wire w1)).
Proof.
  intros Hst Hnext Ha Ht Hid Hwl fields. unfold MultiplayerJs.SocketUpdate.
  rewrite (bind_Ret _ _ _ _ _ Hst), (bind_Ret _ _ _ _ _ Hnext).
  rewrite (step_get _ _ (field pa "type"))
    by (by rewrite (get_prop_obj _ _ _ _ Ha)).
  rewrite Hwl. rewrite (bind_run (_ ≫= _)).
  rewrite (step_get _ _ _id) by exact Hid.
  rewrite (step_set _ _ _ _ _ _ Ha). cbn [kind props w_heap w_wire].
  assert (Hsame : la = lt → pa = pt).
  { intros ->. rewrite Ht in Ha. by inversion Ha. }
  rewrite (step_get _ _ (field pt "gameid")).
  2:{ cbn [w_heap]. apply field_after_write; [exact Ht|].
      intros ->%Hsame. unfold field.
      by rewrite !lookup_insert_ne by discriminate. }
  rewrite (step_set _ (Obj KObject (<["_id" := _id]> pa)))
    by apply lookup_insert_eq.
  cbn [kind props w_heap w_wire]. rewrite insert_insert_eq.
  rewrite (step_get _ _ (field pt "player")).
  2:{ cbn [w_heap]. apply field_after_write; [exact Ht|].
      intros ->%Hsame. unfold field.
      by rewrite !lookup_insert_ne by discriminate. }
  rewrite (step_set _ (Obj KObject (<["_gameid" := field pt "gameid"]>
                                      (<["_id" := _id]> pa))))
    by apply lookup_insert_eq.
  cbn [kind props w_heap w_wire]. rewrite insert_insert_eq.
  rewrite (step_get _ _ (field pt "socket")).
  2:{ cbn [w_heap]. apply field_after_write; [exact Ht|].
      intros ->%Hsame. unfold field.
      by rewrite !lookup_insert_ne by discriminate. }
  fold (tagged _id (field pt "gameid") (field pt "player") pa).
  rewrite (bind_run (emit _ _ _)). reflexivity.
Qed.

(** X14.  When the inner dispatch throws, the middleware throws the same
    exception in the world the dispatch left: nothing is emitted and the
    action is not tagged, whatever its type. *)
Theorem SocketUpdate_next_throws this action w st w0 e w1 :
  getState w = Ret st w0 →
  next action w0 = Throw e w1 →
  SocketUpdate this action w = Throw e w1.
Proof.
  intros Hst Hnext. unfold MultiplayerJs.SocketUpdate.
  by rewrite (bind_Ret _ _ _ _ _ Hst), (bind_Throw _ _ _ _ _ Hnext).
Qed.

(** X15.  For an action of the white list the middleware writes to the
    action object that was dispatched: after the call that object carries
    _id, _gameid and _player, its other fields are kept, and the fields
    of the message are exactly the fields the object has then. *)
Theorem SocketUpdate_tags_in_place lt la w st w0 result w1 pa pt sock :
  getState w = Ret st w0 →
  next (VRef la) w0 = Ret result w1 →
  w_heap w1 !! la = Some (Obj KObject pa) →
  w_heap w1 !! lt = Some (Obj KObject pt) →
  field pt "socket" = VRef sock →
  st ≠ VUndefined → st ≠ VNull →
  field pa "type" = VStr "MAKE_MOVE" ∨ field pa "type" = VStr "END_TURN" →
  ∃ w2 fields,
    SocketUpdate (VRef lt) (VRef la) w = Ret result w2
    ∧ w_heap w2 !! la = Some (Obj KObject fields)
    ∧ last (w_wire w2) = Some (Emit (VRef sock) "action" (VRef la) fields)
    ∧ is_Some (fields !! "_id")
    ∧ is_Some (fields !! "_gameid")
    ∧ is_Some (fields !! "_player")
    ∧ ∀ k, k ∉ ["_id"; "_gameid"; "_player"] → fields !! k = pa !! k.
Proof.
  intros Hst Hnext Ha Ht Hsock Hu Hn Hty.
  destruct (state_id_read (w_heap w1) st Hu Hn) as [_id Hid].
  assert (Hwl : whiteListed (field pa "type") = true)
    by (by rewrite whiteListed_spec, bool_decide_true).
  eexists _, _. split.
  { rewrite (SocketUpdate_tagging _ _ _ _ _ _ _ _ _ _id Hst Hnext Ha Ht Hid Hwl).
    rewrite Hsock. reflexivity. }
  cbn [w_heap w_wire]. split; [apply lookup_insert_eq|]. split.
  { rewrite last_snoc. unfold spread_props. cbn [boxed].
    by rewrite (obj_at_Some _ _ _ (lookup_insert_eq _ _ _)). }
  unfold tagged. split; [|split; [|split]].
  - rewrite !lookup_insert_ne by discriminate. rewrite lookup_insert_eq. eauto.
  - rewrite lookup_insert_ne by discriminate. rewrite lookup_insert_eq. eauto.
  - rewrite lookup_insert_eq. eauto.
  - intros k Hk. rewrite !lookup_insert_ne; [reflexivity|..];
      intros <-; apply Hk; repeat first [ by left | right ].
Qed.

(** X16.  On an instance without a socket (socket undefined or null) an
    action of the white list makes the middleware throw a TypeError, once
    the inner dispatch has run and the action has been tagged: the store
    is updated, nothing is emitted. *)
Theorem SocketUpdate_without_socket lt la w st w0 result w1 pa pt :
  getState w = Ret st w0 →
  next (VRef la) w0 = Ret result w1 →
  w_heap w1 !! la = Some (Obj KObject pa) →
  w_heap w1 !! lt = Some (Obj KObject pt) →
  field pt "socket" = VUndefined ∨ field pt "socket" = VNull →
  st ≠ VUndefined → st ≠ VNull →
  field pa "type" = VStr "MAKE_MOVE" ∨ field pa "type" = VStr "END_TURN" →
  ∃ _id,
    SocketUpdate (VRef lt) (VRef la) w
    = Throw (TypeError "Cannot read property emit")
        (World (<[la := Obj KObject
                          (tagged _id (field pt "gameid") (field pt "player") pa)]>
                  (w_heap w1))
           (w_wire w1)).
Proof.
  intros Hst Hnext Ha Ht Hsock Hu Hn Hty.
  destruct (state_id_read (w_heap w1) st Hu Hn) as [_id Hid].
  assert (Hwl : whiteListed (field pa "type") = true)
    by (by rewrite whiteListed_spec, bool_decide_true).
  exists _id.
  rewrite (SocketUpdate_tagging _ _ _ _ _ _ _ _ _ _id Hst Hnext Ha Ht Hid Hwl).
  by destruct Hsock as [-> | ->].
Qed.

(** X17.  A fresh instance built on a given socket sends the actions of
    the white list on that socket with _gameid 'default' and _player
    null, provided the store leaves the instance alone; [io] is not
    consulted. *)
Theorem constructor_then_dispatch io sock la w lt wa st w0 result w1 pa :
  constructor io (VRef sock) w = Ret (VRef lt) wa →
  getState wa = Ret st w0 →
  next (VRef la) w0 = Ret result w1 →
  w_heap w1 !! lt = w_heap wa !! lt →
  w_heap w1 !! la = Some (Obj KObject pa) →
  st ≠ VUndefined → st ≠ VNull →
  field pa "type" = VStr "MAKE_MOVE" ∨ field pa "type" = VStr "END_TURN" →
  ∃ w2 fields,
    SocketUpdate (VRef lt) (VRef la) wa = Ret result w2
    ∧ w_wire w2
      = (w_wire w1 ++ [Emit (VRef sock) "action" (VRef la) fields])%list
    ∧ fields !! "_gameid" = Some (VStr "default")
    ∧ fields !! "_player" = Some VNull
    ∧ w_wire wa = w_wire w.
Proof.
  intros Hc Hst Hnext Hkeep Ha Hu Hn Hty.
  rewrite constructor_run in Hc by reflexivity. cbv zeta in Hc.
  injection Hc as Hlt Hwa.
  assert (Ht : w_heap w1 !! lt
               = Some (Obj KObject (<["socket" := VRef sock]>
                                      (<["player" := VNull]>
                                         (<["gameid" := VStr "default"]> ∅))))).
  { rewrite Hkeep, <- Hwa, <- Hlt. cbn [w_heap]. apply lookup_insert_eq. }
  destruct (state_id_read (w_heap w1) st Hu Hn) as [_id Hid].
  assert (Hwl : whiteListed (field pa "type") = true)
    by (by rewrite whiteListed_spec, bool_decide_true).
  eexists _, _. split.
  { erewrite SocketUpdate_run;
      [|exact Hst|exact Hnext|exact Ha|exact Ht|reflexivity|exact Hid].
    rewrite Hwl. reflexivity. }
  cbn [w_wire]. split; [reflexivity|]. unfold tagged. split; [|split].
  - by rewrite lookup_insert_ne, lookup_insert_eq by discriminate.
  - by rewrite lookup_insert_eq.
  - by rewrite <- Hwa.
Qed.

End middleware.

(** X18.  [updateGameID] guards the socket where the middleware does not:
    on an instance whose socket is falsy it stores the id, emits nothing
    and returns; on an instance with a socket object it stores the id and
    emits exactly one 'sync' message with the id. *)
Theorem updateGameID_guard lt pt id w :
  w_heap w !! lt = Some (Obj KObject pt) →
  let h' := <[lt := Obj KObject (<["gameid" := id]> pt)]> (w_heap w) in
  (truthy (field pt "socket") = false →
   updateGameID (VRef lt) id w = Ret tt (World h' (w_wire w)))
  ∧ (∀ sock, field pt "socket" = VRef sock →
     ∃ fields,
       updateGameID (VRef lt) id w
       = Ret tt (World h' (w_wire w ++ [Emit (VRef sock) "sync" id fields])%list)).
Proof.
  intros Ht h'. split.
  - intros Hf. unfold updateGameID.
    rewrite (step_set _ _ _ _ _ _ Ht). cbn [kind props]. fold h'.
    rewrite (step_get _ _ (field pt "socket")).
    2:{ cbn [w_heap]. apply field_after_write; [exact Ht|].
        intros _. unfold field. by rewrite lookup_insert_ne by discriminate. }
    by rewrite Hf.
  - intros sock Hsock. eexists.
    by rewrite (updateGameID_run _ _ _ _ _ Ht Hsock).
Qed.

(** X19.  The ids set by [updateGameID] and [updatePlayer] are the ones
    the next action of the white list is sent with: after
    [updateGameID(gid)] and [updatePlayer(pid)] the message of the
    middleware has _gameid [gid] and _player [pid] and follows the 'sync'
    message on the wire, provided the store leaves the instance alone. *)
Theorem update_then_dispatch getState next lt pt sock gid pid la w wa wb
    st w0 result w1 pa :
  w_heap w !! lt = Some (Obj KObject pt) →
  field pt "socket" = VRef sock →
  updateGameID (VRef lt) gid w = Ret tt wa →
  updatePlayer (VRef lt) pid wa = Ret tt wb →
  getState wb = Ret st w0 →
  next (VRef la) w0 = Ret result w1 →
  w_heap w1 !! lt = w_heap wb !! lt →
  w_wire w1 = w_wire wb →
  w_heap w1 !! la = Some (Obj KObject pa) →
  st ≠ VUndefined → st ≠ VNull →
  field pa "type" = VStr "MAKE_MOVE" ∨ field pa "type" = VStr "END_TURN" →
  ∃ w2 sync fields,
    MultiplayerJs.SocketUpdate getState next (VRef lt) (VRef la) wb
    = Ret result w2
    ∧ w_wire w2
      = (w_wire w ++ [Emit (VRef sock) "sync" gid sync;
                      Emit (VRef sock) "action" (VRef la) fields])%list
    ∧ fields !! "_gameid" = Some gid
    ∧ fields !! "_player" = Some pid.
Proof.
  intros Ht Hsock Hg Hp Hst Hnext Hkeep Hwire Ha Hu Hn Hty.
  rewrite (updateGameID_run _ _ _ _ _ Ht Hsock) in Hg. cbv zeta in Hg.
  injection Hg as Hwa.
  assert (Hta : w_heap wa !! lt = Some (Obj KObject (<["gameid" := gid]> pt)))
    by (rewrite <- Hwa; cbn [w_heap]; apply lookup_insert_eq).
  rewrite (updatePlayer_run _ _ _ _ Hta) in Hp.
  injection Hp as Hwb.
  set (pt' := <["player" := pid]> (<["gameid" := gid]> pt)).
  assert (Ht1 : w_heap w1 !! lt = Some (Obj KObject pt')).
  { rewrite Hkeep, <- Hwb. cbn [w_heap]. apply lookup_insert_eq. }
  assert (Hsock' : field pt' "socket" = VRef sock).
  { rewrite <- Hsock. unfold pt', field.
    by rewrite !lookup_insert_ne by discriminate. }
  destruct (state_id_read (w_heap w1) st Hu Hn) as [_id Hid].
  assert (Hwl : whiteListed (field pa "type") = true)
    by (by rewrite whiteListed_spec, bool_decide_true).
  eexists _, _, _. split.
  { erewrite SocketUpdate_run;
      [|exact Hst|exact Hnext|exact Ha|exact Ht1|exact Hsock'|exact Hid].
    rewrite Hwl. reflexivity. }
  cbn [w_wire]. split.
  { rewrite Hwire, <- Hwb. cbn [w_wire]. rewrite <- Hwa. cbn [w_wire].
    rewrite <- app_assoc. reflexivity. }
  unfold tagged, pt', field. split.
  - rewrite lookup_insert_ne, lookup_insert_eq by discriminate.
    by rewrite lookup_insert_ne, lookup_insert_eq by discriminate.
  - by rewrite !lookup_insert_eq.
Qed.

End MultiplayerExtras.

(** ** The random plugin *)

Module RandomFacts.
Import Js JsFacts RandomPlugin.

(** X20.  [setup] of the random plugin keeps a seed the game defines
    (also null) and does not apply [Random.seed] then: the result is a
    new object whose only field is that seed, whatever [Random.seed]
    is.  When the game has no seed, the seed of the new object is the
    value [Random.seed] returned. *)
Theorem setup_seed (R : M heap value) arg game seed h :
  get_prop h arg "game" = inr game →
  get_prop h game "seed" = inr seed →
  (defined seed = true →
   ∀ R' : M heap value,
     setup R' arg h
     = Ret (VRef (fresh_loc h))
         (<[fresh_loc h := Obj KObject {[ "seed" := seed ]}]> h))
  ∧ (defined seed = false →
     ∀ s h1, R h = Ret s h1 →
       setup R arg h
       = Ret (VRef (fresh_loc h1))
           (<[fresh_loc h1 := Obj KObject {[ "seed" := s ]}]> h1)).
Proof.
  intros Hg Hs. split.
  - intros Hd R'. unfold setup.
    rewrite bind_run, (get_run _ _ _ _ Hg).
    rewrite bind_run, (get_run _ _ _ _ Hs).
    rewrite Hd. rewrite bind_run. cbn [mret M_ret]. by rewrite new_run.
  - intros Hd s h1 HR. unfold setup.
    rewrite bind_run, (get_run _ _ _ _ Hg).
    rewrite bind_run, (get_run _ _ _ _ Hs).
    rewrite Hd. rewrite (bind_Ret _ _ _ _ _ HR). by rewrite new_run.
Qed.

End RandomFacts.

(** ** The further properties on the concrete stores *)

Module ExtraCases.
Import Js JsFacts GameJs MultiplayerJs RandomPlugin Fixture.
Import MultiplayerFacts Cases.
Import DispatchExtras NormalizerExtras MultiplayerExtras RandomFacts.

(** In phase B of [game_heap], whose table has an entry for B. *)
Lemma getMove_returns_witness :
  ∃ v, getMove (VRef 1) (VRef 21) (VStr "play") game_heap = Ret v game_heap.
Proof.
  apply (getMove_returns (VRef 1) (VRef 21) (VStr "play") game_heap
           (VStr "B") (VRef 3) 2%positive (VRef 5) 7%positive);
    try (vm_compute; reflexivity).
  intros _ _. exists (VRef 4).
  split; [vm_compute; reflexivity|]. split; discriminate.
Defined.

(** In phase A, which the phases table of [game_heap] does not have. *)
Lemma processMove_rethrows_witness :
  processMove wrap_none call_record (VRef 1) (VRef 40) (VRef 30) (VRef 20)
    game_heap
  = Throw (TypeError "Cannot read property moves") game_heap
  ∧ game_heap = game_heap.
Proof.
  apply (processMove_rethrows wrap_none call_record (VRef 1) (VRef 40)
           (VRef 30) (VRef 20) game_heap (VStr "pass"));
    vm_compute; reflexivity.
Defined.

(** The action whose args is the number 7: the number is the third
    argument. *)
Lemma processMove_args_not_array_witness :
  processMove wrap_none call_record (VRef 1) (VRef 40) (VRef 35) (VRef 22)
    scalar_args_heap
  = call_record (VRef 10) [VRef 40; VRef 41; VNum 7]
      (<[41%positive :=
           Obj KObject (<["playerID" := VStr "1"]> (props ctx_default))]>
         scalar_args_heap).
Proof.
  etrans.
  - apply (processMove_args_not_array wrap_none call_record 1%positive
             game_obj (VRef 40) 35%positive scalar_action (VRef 22)
             ctx_default scalar_args_heap (VRef 10) 10%positive (CUser 0) ∅);
      try (vm_compute; reflexivity).
    intros l es H. vm_compute in H. discriminate H.
  - vm_compute. reflexivity.
Defined.

(** The move "draw" of [game_heap] is the record [{ impl: drop }]. *)
Lemma processMove_impl_record_witness :
  processMove wrap_none call_record (VRef 1) (VRef 40) (VRef 34) (VRef 22)
    game_heap
  = call_record (VRef 14) [VRef 40; VRef 41; VNum 7]
      (<[41%positive :=
           Obj KObject (<["playerID" := VStr "1"]> (props ctx_default))]>
         game_heap).
Proof.
  etrans.
  - apply (processMove_impl_record wrap_none call_record 1%positive
             game_obj (VRef 40) 34%positive
             (Obj KObject {[ "type" := VStr "draw"; "args" := VRef 31;
                             "playerID" := VStr "1" ]})
             (VRef 22) ctx_default game_heap 15%positive
             (Obj KObject {[ "impl" := VRef 14 ]}) 14%positive (CUser 3) ∅);
      vm_compute; reflexivity.
  - vm_compute. reflexivity.
Defined.

(** The config of [game_heap] brings the engine at 5. *)
Lemma Game_keeps_supplied_flow_witness :
  Game flow_stub (VRef 1) game_heap = Game flow_fail (VRef 1) game_heap
  ∧ ∃ g h', Game flow_stub (VRef 1) game_heap = Ret g h'
            ∧ get_prop h' g "flow" = inr (VRef 5).
Proof.
  destruct (Game_keeps_supplied_flow flow_stub flow_fail 1%positive
              (props game_obj) game_heap 5%positive
              (Obj KObject {[ "moveMap" := VRef 7;
                              "processGameEvent" := VRef 11 ]}))
    as [Hsame Hflow]; try (vm_compute; reflexivity); [discriminate|].
  split; [exact Hsame|].
  destruct (Game flow_stub (VRef 1) game_heap) as [g h'|e h'] eqn:E;
    [|vm_compute in E; discriminate E].
  exists g, h'. split; [reflexivity|]. exact (proj1 (Hflow g h' eq_refl)).
Defined.

Lemma flow_stub_keeps_objects c : keeps_objects flow_stub c.
Proof. intros hb o f ha l. apply flow_stub_keeps. Qed.

(** The definition of [Game({})]. *)
Lemma Game_definition_object_witness :
  ∃ g h' lg lp,
    Game flow_stub (VRef 1) empty_config_heap = Ret g h'
    ∧ g ≠ VRef 1
    ∧ get_prop h' g "name" = inr (VStr "default")
    ∧ get_prop h' g "getMove" = inr (VRef lg)
    ∧ h' !! lg = Some (Obj (KFunction (CGetMove (VRef 1))) ∅)
    ∧ get_prop h' g "processMove" = inr (VRef lp)
    ∧ h' !! lp = Some (Obj (KFunction (CProcessMove (VRef 1))) ∅).
Proof.
  destruct (Game flow_stub (VRef 1) empty_config_heap) as [g h'|e h'] eqn:E;
    [|vm_compute in E; discriminate E].
  destruct (Game_definition_object flow_stub 1%positive ∅ empty_config_heap
              g h')
    as (lr & ps' & lg & lp & Hg & Hnew & Hl' & Hk & Hgm & Hlg & Hpm & Hlp);
    [reflexivity | reflexivity | apply flow_stub_keeps_objects | exact E |].
  exists g, h', lg, lp. split; [reflexivity|]. split.
  { subst g. intros [= ->]. vm_compute in Hnew. discriminate Hnew. }
  split; [|auto].
  rewrite Hk.
  - vm_compute in E. injection E as <- <-. vm_compute in Hl'.
    injection Hl' as <-. vm_compute. reflexivity.
  - intros H. repeat (apply elem_of_cons in H as [H|H]; [discriminate H|]).
    inversion H.
Defined.

(** The moves table of [game_heap] after [Game] on its config. *)
Lemma Game_writes_config_only_witness :
  ∃ g h',
    Game flow_stub (VRef 1) game_heap = Ret g h'
    ∧ h' !! 2%positive = game_heap !! 2%positive.
Proof.
  destruct (Game flow_stub (VRef 1) game_heap) as [g h'|e h'] eqn:E;
    [|vm_compute in E; discriminate E].
  exists g, h'. split; [reflexivity|].
  apply (Game_writes_config_only flow_stub 1%positive (props game_obj)
           game_heap g h');
    [vm_compute; reflexivity | vm_compute; reflexivity
    | apply flow_stub_keeps_objects | exact E | discriminate
    | vm_compute; reflexivity].
Defined.

(** [Game] twice on the empty config. *)
Lemma Game_twice_on_config_witness :
  ∃ g1 h1 g2 h2,
    Game flow_stub (VRef 1) empty_config_heap = Ret g1 h1
    ∧ Game flow_stub (VRef 1) h1 = Ret g2 h2
    ∧ g2 ≠ g1.
Proof.
  destruct (Game flow_stub (VRef 1) empty_config_heap) as [g1 h1|e h1] eqn:E1;
    [|vm_compute in E1; discriminate E1].
  destruct (Game flow_stub (VRef 1) h1) as [g2 h2|e h2] eqn:E2.
  - exists g1, h1, g2, h2. split; [reflexivity|]. split; [exact E2|].
    apply (Game_twice_on_config flow_stub 1%positive ∅ empty_config_heap
             g1 h1 g2 h2);
      [reflexivity | reflexivity | apply flow_stub_keeps_objects
      | exact E1 | exact E2].
  - exfalso. vm_compute in E1. injection E1 as <- <-.
    vm_compute in E2. discriminate E2.
Defined.

(** [Game({ moves: null })] throws. *)
Lemma Game_null_moves_witness :
  ∃ e hx, Game flow_stub (VRef 1) null_moves_heap = Throw e hx.
Proof.
  destruct (Game flow_stub (VRef 1) null_moves_heap) as [g h'|e hx] eqn:E;
    [exfalso|eauto].
  apply (Game_null_moves flow_stub 1%positive {[ "moves" := VNull ]}
           null_moves_heap eq_refl eq_refl eq_refl
           (fun hb o f ha => flow_stub_keeps (VRef 1) hb 1%positive o f ha)
           g h' E).
Defined.

Lemma Game_flow_without_moveMap_witness :
  ∃ e hx, Game flow_stub (VRef 1) bare_flow_heap = Throw e hx.
Proof.
  apply (Game_flow_without_moveMap flow_stub 1%positive
           {[ "flow" := VRef 2 ]} bare_flow_heap 2%positive
           (Obj KObject {[ "processGameEvent" := VRef 3 ]}));
    try (vm_compute; reflexivity); [discriminate|].
  left. vm_compute. reflexivity.
Defined.

Lemma collect_names_order_witness :
  ∃ rest,
    collect_names ["pass"; "play"] ["A.play"; "B.take"]
    = (["pass"; "play"] ++ rest)%list
    ∧ ∀ x, x ∈ rest →
           (x ∉ ["pass"; "play"])
           ∧ ∃ k, k ∈ ["A.play"; "B.take"] ∧ x = last_segment k.
Proof.
  apply (collect_names_order ["pass"; "play"] ["A.play"; "B.take"]).
  apply (bool_decide_unpack _). vm_compute. exact I.
Defined.

Lemma phase_key_name_witness : last_segment "B.play" = "play".
Proof.
  apply (phase_key_name "B" "play").
  intros H. repeat (apply elem_of_cons in H as [H|H]; [discriminate H|]).
  inversion H.
Defined.

(** A reducer that throws: the message is not sent. *)
Lemma SocketUpdate_next_throws_witness :
  SocketUpdate getState_stub next_fail (VRef 50) (VRef 54) client_world
  = Throw (TypeError "reducer") client_world.
Proof.
  apply (SocketUpdate_next_throws getState_stub next_fail (VRef 50) (VRef 54)
           client_world (VRef 52) client_world);
    vm_compute; reflexivity.
Defined.

(** The move action of [client_world] after its dispatch. *)
Lemma SocketUpdate_tags_in_place_witness :
  ∃ w2 fields,
    SocketUpdate getState_stub next_stub (VRef 50) (VRef 54) client_world
    = Ret (VRef 54) w2
    ∧ w_heap w2 !! 54%positive = Some (Obj KObject fields)
    ∧ last (w_wire w2) = Some (Emit (VRef 51) "action" (VRef 54) fields)
    ∧ is_Some (fields !! "_gameid")
    ∧ fields !! "type" = Some (VStr "MAKE_MOVE").
Proof.
  destruct (SocketUpdate_tags_in_place getState_stub next_stub 50%positive
              54%positive client_world (VRef 52) client_world (VRef 54)
              world_after move_fields instance_fields 51%positive)
    as (w2 & fields & E & Hh & Hw & _ & Hg & _ & Hk);
    [vm_compute; reflexivity | vm_compute; reflexivity
    | vm_compute; reflexivity | vm_compute; reflexivity
    | vm_compute; reflexivity | discriminate | discriminate
    | left; vm_compute; reflexivity |].
  exists w2, fields. split; [exact E|]. split; [exact Hh|].
  split; [exact Hw|]. split; [exact Hg|].
  rewrite Hk; [reflexivity|].
  intros H. repeat (apply elem_of_cons in H as [H|H]; [discriminate H|]).
  inversion H.
Defined.

(** The same dispatch on the instance without a socket. *)
Lemma SocketUpdate_without_socket_witness :
  ∃ w2,
    SocketUpdate getState_stub next_stub (VRef 50) (VRef 54) offline_world
    = Throw (TypeError "Cannot read property emit") w2
    ∧ w_wire w2 = []
    ∧ get_prop (w_heap w2) (VRef 60) "state" = inr (VRef 53).
Proof.
  destruct (SocketUpdate_without_socket getState_stub next_stub 50%positive
              54%positive offline_world (VRef 52) offline_world (VRef 54)
              (World (<[60%positive := Obj KObject {[ "state" := VRef 53 ]}]>
                        (w_heap offline_world)) [])
              move_fields offline_fields)
    as (_id & E);
    [vm_compute; reflexivity | vm_compute; reflexivity
    | vm_compute; reflexivity | vm_compute; reflexivity
    | right; vm_compute; reflexivity | discriminate | discriminate
    | left; vm_compute; reflexivity |].
  eexists. split; [exact E|]. split; [reflexivity|].
  cbn [w_heap]. rewrite (get_prop_obj _ 60%positive
                           (Obj KObject {[ "state" := VRef 53 ]})).
  - vm_compute. reflexivity.
  - rewrite lookup_insert_ne by discriminate. apply lookup_insert_eq.
Defined.

(** A new instance on the socket at 51 of [client_world]. *)
Lemma constructor_then_dispatch_witness :
  ∃ lt wa w2 fields,
    constructor io_stub (VRef 51) client_world = Ret (VRef lt) wa
    ∧ SocketUpdate getState_stub next_stub (VRef lt) (VRef 54) wa
      = Ret (VRef 54) w2
    ∧ w_wire w2 = [Emit (VRef 51) "action" (VRef 54) fields]
    ∧ fields !! "_gameid" = Some (VStr "default")
    ∧ fields !! "_player" = Some VNull.
Proof.
  pose proof (constructor_run io_stub (VRef 51) client_world eq_refl) as Ec.
  cbv zeta in Ec.
  set (lt := fresh_loc (w_heap client_world)) in Ec.
  match type of Ec with _ = Ret _ ?w => set (wa := w) in Ec end.
  destruct (constructor_then_dispatch getState_stub next_stub io_stub
              51%positive 54%positive client_world lt wa (VRef 52) wa
              (VRef 54)
              (World (<[60%positive := Obj KObject {[ "state" := VRef 53 ]}]>
                        (w_heap wa)) [])
              move_fields)
    as (w2 & fields & E & Hw & Hg & Hp & _);
    [exact Ec | vm_compute; reflexivity | vm_compute; reflexivity
    | vm_compute; reflexivity | vm_compute; reflexivity
    | discriminate | discriminate | left; vm_compute; reflexivity |].
  exists lt, wa, w2, fields. split; [exact Ec|]. split; [exact E|].
  split; [exact Hw|]. split; assumption.
Defined.

(** [updateGameID('g2')] without a socket and with one. *)
Lemma updateGameID_guard_witness :
  (∃ w2, updateGameID (VRef 50) (VStr "g2") offline_world = Ret tt w2
         ∧ w_wire w2 = []
         ∧ get_prop (w_heap w2) (VRef 50) "gameid" = inr (VStr "g2"))
  ∧ (∃ w2 fields,
       updateGameID (VRef 50) (VStr "g2") client_world = Ret tt w2
       ∧ w_wire w2 = [Emit (VRef 51) "sync" (VStr "g2") fields]).
Proof.
  split.
  - pose proof (updateGameID_guard 50%positive offline_fields (VStr "g2")
                  offline_world) as H.
    destruct H as [H _]; [vm_compute; reflexivity|].
    eexists. split; [apply H; reflexivity|]. split; [reflexivity|].
    cbn [w_heap]. erewrite get_prop_obj; [|apply lookup_insert_eq].
    reflexivity.
  - pose proof (updateGameID_guard 50%positive instance_fields (VStr "g2")
                  client_world) as H.
    destruct H as [_ H]; [vm_compute; reflexivity|].
    destruct (H 51%positive eq_refl) as [fields E].
    eexists _, fields. split; [exact E|]. reflexivity.
Defined.

(** The client moves to game 'g2' as player '1', then makes a move. *)
Lemma update_then_dispatch_witness :
  ∃ wa wb w2 sync fields,
    updateGameID (VRef 50) (VStr "g2") client_world = Ret tt wa
    ∧ updatePlayer (VRef 50) (VStr "1") wa = Ret tt wb
    ∧ SocketUpdate getState_stub next_stub (VRef 50) (VRef 54) wb
      = Ret (VRef 54) w2
    ∧ w_wire w2 = [Emit (VRef 51) "sync" (VStr "g2") sync;
                    Emit (VRef 51) "action" (VRef 54) fields]
    ∧ fields !! "_gameid" = Some (VStr "g2")
    ∧ fields !! "_player" = Some (VStr "1").
Proof.
  assert (H50 : w_heap client_world !! 50%positive
                = Some (Obj KObject instance_fields))
    by (vm_compute; reflexivity).
  pose proof (updateGameID_run 50%positive instance_fields 51%positive
                (VStr "g2") client_world H50 eq_refl) as Ea.
  cbv zeta in Ea.
  match type of Ea with _ = Ret _ ?w => set (wa := w) in Ea end.
  assert (Ha50 : w_heap wa !! 50%positive
                 = Some (Obj KObject (<["gameid" := VStr "g2"]> instance_fields)))
    by apply lookup_insert_eq.
  pose proof (updatePlayer_run 50%positive _ (VStr "1") wa Ha50) as Eb.
  match type of Eb with _ = Ret _ ?w => set (wb := w) in Eb end.
  destruct (update_then_dispatch getState_stub next_stub 50%positive
              instance_fields 51%positive (VStr "g2") (VStr "1") 54%positive
              client_world wa wb (VRef 52) wb (VRef 54)
              (World (<[60%positive := Obj KObject {[ "state" := VRef 53 ]}]>
                        (w_heap wb)) (w_wire wb))
              move_fields)
    as (w2 & sync & fields & E & Hw & Hg & Hp);
    [exact H50 | reflexivity | exact Ea | exact Eb
    | vm_compute; reflexivity | vm_compute; reflexivity
    | vm_compute; reflexivity | reflexivity | vm_compute; reflexivity
    | discriminate | discriminate | left; vm_compute; reflexivity |].
  exists wa, wb, w2, sync, fields. split; [exact Ea|]. split; [exact Eb|].
  split; [exact E|]. split; [exact Hw|]. split; assumption.
Defined.

(** A game with the seed 'abc', and a game without a seed. *)
Lemma setup_seed_witness :
  setup seed_fail (VRef 1) seeded_heap
  = Ret (VRef 3)
      (<[3%positive := Obj KObject {[ "seed" := VStr "abc" ]}]> seeded_heap)
  ∧ setup seed_stub (VRef 1) unseeded_heap
    = Ret (VRef 3)
        (<[3%positive := Obj KObject {[ "seed" := VStr "fresh" ]}]>
           unseeded_heap).
Proof.
  split.
  - etrans.
    + apply (proj1 (setup_seed seed_stub (VRef 1) (VRef 2) (VStr "abc")
                      seeded_heap eq_refl eq_refl) eq_refl seed_fail).
    + vm_compute. reflexivity.
  - etrans.
    + apply (proj2 (setup_seed seed_stub (VRef 1) (VRef 2) VUndefined
                      unseeded_heap eq_refl eq_refl) eq_refl
               (VStr "fresh") unseeded_heap eq_refl).
    + vm_compute. reflexivity.
Defined.

End ExtraCases.
